(** * The top-of-block auction lane of [blockbuster]

    A shallow embedding of [blockbuster/tob_lane.go] and [blockbuster/utils.go]
    and the properties of bid selection, membership bookkeeping and
    speculative execution that the lane is expected to satisfy.

    Conventions.
    - A Go value of type [int64] is a [Z]; [len] of a slice is a [nat]
      converted with [Z.of_nat].
    - [map[string]struct{}] is a [gset string], [map[string][]byte] is a
      [gmap string bytes].
    - A Go pair [(v, err)] of which the caller inspects only one side is a
      [result]; where the caller inspects both sides the pair is kept.
    - [sdk.Context] is passed by value but carries a reference to the
      multistore.  The store contents are threaded explicitly ([Store]); the
      by-value remainder of the context is [Meta].
    - The logger has no influence on any returned value and is left out. *)

From Stdlib Require Import ZArith String List.
From stdpp Require Import base gmap sets list strings sorting.

Open Scope string_scope.
Open Scope Z_scope.

(** ** Byte strings and errors *)

Definition bytes : Type := list Byte.byte.

(** [int64(len(bz))] *)
Definition len64 (bz : bytes) : Z := Z.of_nat (length bz).

(** Two's complement wrap-around of [int64] arithmetic. *)
Definition wrap64 (z : Z) : Z := (z + 2 ^ 63) mod 2 ^ 64 - 2 ^ 63.

(** Go [error] values.  [ErrWrap msg e] is [fmt.Errorf(msg + ": %w", e)],
    [ErrMsg msg] is [fmt.Errorf(msg)], [ErrExternal] is whatever an external
    collaborator (codec, validation hook, auction factory) reports. *)
Inductive error : Type :=
| ErrTxNotFound
| ErrDuplicate
| ErrCapacity
| ErrExternal (what : string)
| ErrMsg (msg : string)
| ErrWrap (msg : string) (cause : error).

Definition result (A : Type) : Type := (A + error)%type.

(** A Go call either returns or panics. *)
Inductive outcome (A : Type) : Type :=
| Returns (a : A)
| Panics (msg : string).
Arguments Returns {A} a.
Arguments Panics {A} msg.

Definition error_eqb_head (e target : error) : bool :=
  match e, target with
  | ErrTxNotFound, ErrTxNotFound => true
  | ErrDuplicate, ErrDuplicate => true
  | ErrCapacity, ErrCapacity => true
  | ErrExternal a, ErrExternal b => bool_decide (a = b)
  | ErrMsg a, ErrMsg b => bool_decide (a = b)
  | _, _ => false
  end.

(** [errors.Is(e, target)] for a sentinel [target]: walk the [%w] chain. *)
Fixpoint errors_Is (e target : error) : bool :=
  match e with
  | ErrWrap _ cause => errors_Is cause target
  | _ => error_eqb_head e target
  end.

(** ** Auction bid metadata *)

Record AuctionBidInfo : Type := {
  Bidder : string;
  Bid : Z;
  Transactions : list bytes;
  Timeout : Z
}.

Section Blockbuster.

Context {Tx Store Meta : Type}.

(** [hex.EncodeToString(sha256.Sum256(bz)[:])] of the Go standard library. *)
Variable sha256_hex : bytes -> string.

(** [sdk.TxEncoder], [sdk.TxDecoder] and [sdk.AnteHandler].  The handler
    receives the store behind the context it is given, the by-value part of
    that context and the [simulate] flag; it leaves its writes in that store
    and returns a new context value and an error. *)
Definition TxEncoder : Type := Tx -> result bytes.
Definition TxDecoder : Type := bytes -> result Tx.
Definition AnteHandler : Type :=
  Store -> Meta -> Tx -> bool -> Store * Meta * option error.

(** [mempool.AuctionFactory]: an interface with two methods.
    [GetAuctionBidInfo] returns a pointer and an error, both of which are
    inspected by the callers. *)
Record AuctionFactory : Type := {
  GetAuctionBidInfo : Tx -> option AuctionBidInfo * option error;
  WrapBundleTransaction : bytes -> result Tx
}.

(** [GetTxHashStr] of [utils.go] (and the method [getTxHashStr]). *)
Definition GetTxHashStr (txEncoder : TxEncoder) (tx : Tx) : result string :=
  match txEncoder tx with
  | inr err => inr (ErrWrap "failed to encode transaction" err)
  | inl txBz => inl (sha256_hex txBz)
  end.

(** ** The priority mempool *)

(** Modelled from the spec: the priority mempool of package [mempool]
    ([mempool.NewPriorityMempool], its [Insert], [Remove], [CountTx] and
    [Select]) is not among the sources.  The spec describes it as a container
    keyed by transaction identity, the identity being the hex SHA-256 of the
    encoding, ordered by priority and then by insertion, highest priority
    first; [Insert] fails with a duplicate error for a present identity, with
    a capacity error when the pool is at its configured maximum, and
    propagates encode errors; [Remove] reports not-found for an absent
    identity and may fail in other, unspecified, ways ([removeFault], which
    names the failure); the
    iterator walks a snapshot in priority order.  [entries] is kept in
    iteration order, every transaction next to its identity. *)
Record PriorityMempool : Type := {
  TxPriority : Tx -> Z;
  MaxTx : Z;
  identity : Tx -> result string;
  removeFault : Tx -> option string;
  entries : list (string * Tx)
}.

Definition pool_with (p : PriorityMempool) (es : list (string * Tx)) : PriorityMempool :=
  {| TxPriority := TxPriority p; MaxTx := MaxTx p; identity := identity p;
     removeFault := removeFault p; entries := es |}.

Definition pool_keys (p : PriorityMempool) : list string := (entries p).*1.

(** Modelled from the spec: a new entry goes behind every entry whose
    priority is at least its own, so that equal priorities keep their
    insertion order. *)
Fixpoint insert_by_priority (prio : Tx -> Z) (e : string * Tx)
    (es : list (string * Tx)) : list (string * Tx) :=
  match es with
  | [] => [e]
  | e' :: rest =>
      if prio e'.2 <? prio e.2 then e :: e' :: rest
      else e' :: insert_by_priority prio e rest
  end.

(** Modelled from the spec: [Insert] of the priority mempool. *)
Definition pool_Insert (p : PriorityMempool) (tx : Tx) : PriorityMempool * option error :=
  match identity p tx with
  | inr err => (p, Some err)
  | inl k =>
      if bool_decide (k ∈ pool_keys p) then (p, Some ErrDuplicate)
      else if MaxTx p <=? Z.of_nat (length (entries p)) then (p, Some ErrCapacity)
      else (pool_with p (insert_by_priority (TxPriority p) (k, tx) (entries p)), None)
  end.

(** Modelled from the spec: [Remove] of the priority mempool. *)
Definition pool_Remove (p : PriorityMempool) (tx : Tx) : PriorityMempool * option error :=
  match removeFault p tx with
  | Some what => (p, Some (ErrExternal what))
  | None =>
      match identity p tx with
      | inr err => (p, Some err)
      | inl k =>
          if bool_decide (k ∈ pool_keys p)
          then (pool_with p (filter (λ e, e.1 ≠ k) (entries p)), None)
          else (p, Some ErrTxNotFound)
      end
  end.

(** Modelled from the spec: [CountTx] and the snapshot iterator of [Select]. *)
Definition pool_CountTx (p : PriorityMempool) : nat := length (entries p).
Definition pool_Select (p : PriorityMempool) : list Tx := (entries p).*2.

(** Modelled from the spec: [mempool.NewPriorityMempool]; the identity is the
    content hash under the lane's encoder. *)
Definition NewPriorityMempool (prio : Tx -> Z) (maxTx : Z) (enc : TxEncoder)
    (fault : Tx -> option string) : PriorityMempool :=
  {| TxPriority := prio; MaxTx := maxTx; identity := GetTxHashStr enc;
     removeFault := fault; entries := [] |}.

(** ** The lane *)

Record TOBLane : Type := {
  index : PriorityMempool;
  af : AuctionFactory;
  txEncoder : TxEncoder;
  txDecoder : TxDecoder;
  anteHandler : option AnteHandler;
  txIndex : gset string
}.

Definition lane_with (l : TOBLane) (p : PriorityMempool) (ix : gset string) : TOBLane :=
  {| index := p; af := af l; txEncoder := txEncoder l; txDecoder := txDecoder l;
     anteHandler := anteHandler l; txIndex := ix |}.

(** [NewTOBLane]; [prio] stands for [mempool.NewDefaultTxPriority()] and
    [fault] for the removal failures of the pool, both of package [mempool]. *)
Definition NewTOBLane (txDecoder : TxDecoder) (txEncoder : TxEncoder) (maxTx : Z)
    (af : AuctionFactory) (anteHandler : option AnteHandler)
    (prio : Tx -> Z) (fault : Tx -> option string) : TOBLane :=
  {| index := NewPriorityMempool prio maxTx txEncoder fault;
     af := af; txEncoder := txEncoder; txDecoder := txDecoder;
     anteHandler := anteHandler; txIndex := ∅ |}.

Definition LaneNameTOB : string := "tob".
Definition Name (l : TOBLane) : string := LaneNameTOB.

Definition getTxHashStr (l : TOBLane) (tx : Tx) : result string :=
  GetTxHashStr (txEncoder l) tx.

Definition Match (l : TOBLane) (tx : Tx) : bool :=
  match GetAuctionBidInfo (af l) tx with
  | (Some _, None) => true
  | _ => false
  end.

Definition Contains (l : TOBLane) (tx : Tx) : result bool :=
  match getTxHashStr l tx with
  | inr err => inr (ErrWrap "failed to get tx hash string" err)
  | inl txHashStr => inl (bool_decide (txHashStr ∈ txIndex l))
  end.

Definition verifyTx (l : TOBLane) (ctx : Store) (m : Meta) (tx : Tx)
    : Store * Meta * option error :=
  match anteHandler l with
  | Some h => h ctx m tx false
  | None => (ctx, m, None)
  end.

(** [prepareProposalVerifyTx]: the context returned by the handler is dropped,
    its writes stay in the store behind [ctx]. *)
Definition prepareProposalVerifyTx (l : TOBLane) (ctx : Store) (m : Meta) (tx : Tx)
    : Store * result bytes :=
  match txEncoder l tx with
  | inr err => (ctx, inr err)
  | inl txBz =>
      match verifyTx l ctx m tx with
      | (ctx', _, Some err) => (ctx', inr err)
      | (ctx', _, None) => (ctx', inl txBz)
      end
  end.

Definition processProposalVerifyTx (l : TOBLane) (ctx : Store) (m : Meta) (txBz : bytes)
    : Store * result Tx :=
  match txDecoder l txBz with
  | inr err => (ctx, inr err)
  | inl tx =>
      match verifyTx l ctx m tx with
      | (ctx', _, Some err) => (ctx', inr err)
      | (ctx', _, None) => (ctx', inl tx)
      end
  end.

(** The loop over [bidInfo.Transactions] in [VerifyTx]; the context value is
    threaded from one bundled transaction to the next. *)
Fixpoint VerifyTx_bundle (l : TOBLane) (ctx : Store) (m : Meta) (txs : list bytes)
    : Store * option error :=
  match txs with
  | [] => (ctx, None)
  | tx :: rest =>
      match WrapBundleTransaction (af l) tx with
      | inr err => (ctx, Some (ErrWrap "invalid bid tx; failed to decode bundled tx" err))
      | inl bundledTx =>
          match (GetAuctionBidInfo (af l) bundledTx).1 with
          | Some _ => (ctx, Some (ErrMsg "invalid bid tx; bundled tx cannot be a bid tx"))
          | None =>
              match verifyTx l ctx m bundledTx with
              | (ctx', _, Some err) =>
                  (ctx', Some (ErrWrap "invalid bid tx; failed to execute bundled transaction" err))
              | (ctx', m', None) => VerifyTx_bundle l ctx' m' rest
              end
          end
      end
  end.

(** [VerifyTx].  With a nil bid info and a nil error the field access
    [bidInfo.Transactions] dereferences a nil pointer. *)
Definition VerifyTx (l : TOBLane) (ctx : Store) (m : Meta) (bidTx : Tx)
    : outcome (Store * option error) :=
  match GetAuctionBidInfo (af l) bidTx with
  | (_, Some err) => Returns (ctx, Some (ErrWrap "failed to get auction bid info" err))
  | (None, None) =>
      match verifyTx l ctx m bidTx with
      | (ctx', _, Some err) =>
          Returns (ctx', Some (ErrWrap "invalid bid tx; failed to execute ante handler" err))
      | (_, _, None) => Panics "nil pointer dereference"
      end
  | (Some bidInfo, None) =>
      match verifyTx l ctx m bidTx with
      | (ctx', _, Some err) =>
          Returns (ctx', Some (ErrWrap "invalid bid tx; failed to execute ante handler" err))
      | (ctx', m', None) => Returns (VerifyTx_bundle l ctx' m' (Transactions bidInfo))
      end
  end.

(** [ctx.CacheContext()]: a branch of the store that starts with the contents
    of its parent, and the [write] that replaces the parent's contents by the
    branch's.  The by-value part of the branch context is that of its
    parent. *)
Definition CacheContext (ctx : Store) : Store * (Store -> Store) :=
  (ctx, λ cache, cache).

(** [compute the total size of the transactions selected thus far] *)
Definition totalTxBytes (selectedTxs : gmap string bytes) : Z :=
  map_fold (λ _ tx acc, wrap64 (acc + len64 tx)) 0 selectedTxs.

(** The loop over [bundledTransactions] in [PrepareLane]: [None] when an
    element fails to wrap or to verify, otherwise the branch store after the
    last element and [sdkTxBytes]. *)
Fixpoint prepareBundle (l : TOBLane) (cacheCtx : Store) (m : Meta)
    (bundledTransactions : list bytes) : option (Store * list bytes) :=
  match bundledTransactions with
  | [] => Some (cacheCtx, [])
  | rawRefTx :: rest =>
      match WrapBundleTransaction (af l) rawRefTx with
      | inr _ => None
      | inl refTx =>
          match prepareProposalVerifyTx l cacheCtx m refTx with
          | (_, inr _) => None
          | (cacheCtx', inl txBz) =>
              match prepareBundle l cacheCtx' m rest with
              | None => None
              | Some (cacheCtx'', sdkTxBytes) => Some (cacheCtx'', txBz :: sdkTxBytes)
              end
          end
      end
  end.

(** What one pass through the body of [selectBidTxLoop] does with its
    candidate. *)
Inductive bidOutcome : Type :=
| Failed (err : error)
| Skipped
| Marked
| Won (ctx' : Store) (bidTxBz : bytes) (sdkTxBytes : list bytes).

Definition selectBid (l : TOBLane) (ctx : Store) (m : Meta) (maxTxBytes : Z)
    (selectedTxs : gmap string bytes) (tmpBidTx : Tx) : bidOutcome :=
  let '(cacheCtx, write) := CacheContext ctx in
  match getTxHashStr l tmpBidTx with
  | inr err => Failed (ErrWrap "failed to get bid tx hash" err)
  | inl txHash =>
      match selectedTxs !! txHash with
      | Some _ => Skipped
      | None =>
          match prepareProposalVerifyTx l cacheCtx m tmpBidTx with
          | (_, inr _) => Marked
          | (cacheCtx', inl bidTxBz) =>
              if len64 bidTxBz <=? maxTxBytes then
                match GetAuctionBidInfo (af l) tmpBidTx with
                | (Some bidInfo, None) =>
                    match prepareBundle l cacheCtx' m (Transactions bidInfo) with
                    | None => Marked
                    | Some (cacheCtx'', sdkTxBytes) =>
                        Won (write cacheCtx'') bidTxBz sdkTxBytes
                    end
                | _ => Marked
                end
              else Marked
          end
      end
  end.

(** The local variables of [PrepareLane] and the caller's store. *)
Record scan : Type := {
  real : Store;
  tmpSelectedTxs : list bytes;
  totalBytes : Z;
  txsToRemove : list Tx
}.

Definition mark (tx : Tx) (st : scan) : scan :=
  {| real := real st; tmpSelectedTxs := tmpSelectedTxs st;
     totalBytes := totalBytes st; txsToRemove := txsToRemove st ++ [tx] |}.

Definition win (ctx' : Store) (bidTxBz : bytes) (sdkTxBytes : list bytes) (st : scan) : scan :=
  {| real := ctx';
     tmpSelectedTxs := (tmpSelectedTxs st ++ [bidTxBz]) ++ sdkTxBytes;
     totalBytes := wrap64 (totalBytes st + len64 bidTxBz);
     txsToRemove := txsToRemove st |}.

(** [selectBidTxLoop] over the snapshot [it] of the iterator. *)
Fixpoint selectBidTxLoop (l : TOBLane) (m : Meta) (maxTxBytes : Z)
    (selectedTxs : gmap string bytes) (it : list Tx) (st : scan) : scan * option error :=
  match it with
  | [] => (st, None)
  | tmpBidTx :: rest =>
      match selectBid l (real st) m maxTxBytes selectedTxs tmpBidTx with
      | Failed err => (st, Some err)
      | Skipped => selectBidTxLoop l m maxTxBytes selectedTxs rest st
      | Marked => selectBidTxLoop l m maxTxBytes selectedTxs rest (mark tmpBidTx st)
      | Won ctx' bidTxBz sdkTxBytes => (win ctx' bidTxBz sdkTxBytes st, None)
      end
  end.

Definition Remove (l : TOBLane) (tx : Tx) : TOBLane * option error :=
  match getTxHashStr l tx with
  | inr err => (l, Some (ErrWrap "failed to get tx hash string" err))
  | inl txHashStr =>
      match pool_Remove (index l) tx with
      | (p, Some err) =>
          if errors_Is err ErrTxNotFound
          then (lane_with l p (txIndex l ∖ {[txHashStr]}), None)
          else (lane_with l p (txIndex l),
                Some (ErrWrap "failed to remove invalid transaction from the mempool" err))
      | (p, None) => (lane_with l p (txIndex l ∖ {[txHashStr]}), None)
      end
  end.

(** [for tx := range txsToRemove]: the marked transactions are removed one by
    one until a removal fails.  Go leaves the order of a map iteration open;
    [txs] is one such order, [PrepareLane] below takes the order of marking. *)
Fixpoint removeAll (l : TOBLane) (txs : list Tx) : TOBLane * option error :=
  match txs with
  | [] => (l, None)
  | tx :: rest =>
      match Remove l tx with
      | (l', Some err) => (l', Some err)
      | (l', None) => removeAll l' rest
      end
  end.

Definition scan_init (ctx : Store) (selectedTxs : gmap string bytes) : scan :=
  {| real := ctx; tmpSelectedTxs := []; totalBytes := totalTxBytes selectedTxs;
     txsToRemove := [] |}.

(** [PrepareLane]: the caller's store and the lane after the call, and the
    returned pair.  The marks are removed in the order of marking, where the
    code ranges over a map; the order changes neither whether the removal
    fails nor, when it does not fail, the lane that is left, but after a
    failed removal the lane and the reported refusal depend on it. *)
Definition PrepareLane (l : TOBLane) (ctx : Store) (m : Meta) (maxTxBytes : Z)
    (selectedTxs : gmap string bytes) : Store * TOBLane * result (list bytes) :=
  match selectBidTxLoop l m maxTxBytes selectedTxs (pool_Select (index l))
          (scan_init ctx selectedTxs) with
  | (st, Some err) => (real st, l, inr err)
  | (st, None) =>
      match removeAll l (txsToRemove st) with
      | (l', Some err) => (real st, l', inr err)
      | (l', None) => (real st, l', inl (tmpSelectedTxs st))
      end
  end.

Definition ProcessLane (l : TOBLane) (ctx : Store) (m : Meta) (txs : list bytes)
    : outcome (option error) :=
  Panics "not implemented".

Definition Insert (l : TOBLane) (tx : Tx) : TOBLane * option error :=
  match getTxHashStr l tx with
  | inr err => (l, Some err)
  | inl txHashStr =>
      match pool_Insert (index l) tx with
      | (p, Some err) =>
          (lane_with l p (txIndex l),
           Some (ErrWrap "failed to insert tx into auction index" err))
      | (p, None) => (lane_with l p ({[txHashStr]} ∪ txIndex l), None)
      end
  end.

Definition Select (l : TOBLane) : list Tx := pool_Select (index l).

Definition CountTx (l : TOBLane) : nat := pool_CountTx (index l).

(** ** Lane states and what a scan examines *)

(** The lane states produced by [NewTOBLane] followed by any sequence of
    [Insert] and [Remove]. *)
Inductive reachable : TOBLane -> Prop :=
| reachable_new dec enc maxTx fac ah prio fault :
    reachable (NewTOBLane dec enc maxTx fac ah prio fault)
| reachable_Insert l tx : reachable l -> reachable (Insert l tx).1
| reachable_Remove l tx : reachable l -> reachable (Remove l tx).1.

(** The bookkeeping that the pool and the membership index share. *)
Record lane_inv (l : TOBLane) : Prop := {
  inv_identity : identity (index l) = GetTxHashStr (txEncoder l);
  inv_hashes : Forall (λ e, getTxHashStr l e.2 = inl e.1) (entries (index l));
  inv_nodup : NoDup (pool_keys (index l));
  inv_index : txIndex l = list_to_set (pool_keys (index l));
  inv_sorted :
    StronglySorted (λ a b, TxPriority (index l) b.2 <= TxPriority (index l) a.2)
      (entries (index l))
}.

(** The candidates that [selectBidTxLoop] passes through its body, in order:
    everything up to and including the first candidate that wins or fails. *)
Fixpoint examined (l : TOBLane) (ctx : Store) (m : Meta) (maxTxBytes : Z)
    (selectedTxs : gmap string bytes) (it : list Tx) : list Tx :=
  match it with
  | [] => []
  | tx :: rest =>
      match selectBid l ctx m maxTxBytes selectedTxs tx with
      | Skipped | Marked => tx :: examined l ctx m maxTxBytes selectedTxs rest
      | _ => [tx]
      end
  end.

(** The candidate is passed over by the loop: skipped or marked. *)
Definition passed_over (l : TOBLane) (ctx : Store) (m : Meta) (maxTxBytes : Z)
    (selectedTxs : gmap string bytes) (tx : Tx) : Prop :=
  selectBid l ctx m maxTxBytes selectedTxs tx = Skipped
  ∨ selectBid l ctx m maxTxBytes selectedTxs tx = Marked.

(** The candidates that [selectBidTxLoop] marks for removal. *)
Fixpoint marked (l : TOBLane) (ctx : Store) (m : Meta) (maxTxBytes : Z)
    (selectedTxs : gmap string bytes) (it : list Tx) : list Tx :=
  match it with
  | [] => []
  | tx :: rest =>
      match selectBid l ctx m maxTxBytes selectedTxs tx with
      | Skipped => marked l ctx m maxTxBytes selectedTxs rest
      | Marked => tx :: marked l ctx m maxTxBytes selectedTxs rest
      | _ => []
      end
  end.

(** The lane without the pool entries and index entries of the hashes [hs]. *)
Definition purge (l : TOBLane) (hs : list string) : TOBLane :=
  lane_with l
    (pool_with (index l) (filter (λ e, e.1 ∉ hs) (entries (index l))))
    (txIndex l ∖ list_to_set hs).

(** A candidate that is not yet selected, passes the validation hook, fits
    [maxTxBytes] with its own encoding, carries bid info and whose bundle
    wraps and passes the hook element by element, all on a branch of [ctx]. *)
Definition eligible (l : TOBLane) (ctx : Store) (m : Meta) (maxTxBytes : Z)
    (selectedTxs : gmap string bytes) (tx : Tx) : Prop :=
  ∃ txHash cacheCtx bidTxBz bidInfo cacheCtx' sdkTxBytes,
    getTxHashStr l tx = inl txHash
    ∧ selectedTxs !! txHash = None
    ∧ prepareProposalVerifyTx l ctx m tx = (cacheCtx, inl bidTxBz)
    ∧ len64 bidTxBz <= maxTxBytes
    ∧ GetAuctionBidInfo (af l) tx = (Some bidInfo, None)
    ∧ prepareBundle l cacheCtx m (Transactions bidInfo) = Some (cacheCtx', sdkTxBytes).

(** The store after the hook has run on [txs] one after the other. *)
Definition runHook (l : TOBLane) (ctx : Store) (m : Meta) (txs : list Tx) : Store :=
  foldl (λ c tx, (verifyTx l c m tx).1.1) ctx txs.

(** The hook run on [txs] one after the other, the store and the context
    value threaded from one to the next, up to the first rejection. *)
Fixpoint verifyAll (l : TOBLane) (ctx : Store) (m : Meta) (txs : list Tx)
    : Store * Meta * option error :=
  match txs with
  | [] => (ctx, m, None)
  | tx :: rest =>
      match verifyTx l ctx m tx with
      | (ctx', m', Some err) => (ctx', m', Some err)
      | (ctx', m', None) => verifyAll l ctx' m' rest
      end
  end.

(** [RemoveTxsFromMempool] of [utils.go].  [sdkmempool.Mempool] is an
    interface; [remove] is the [Remove] method of the implementation that is
    passed, [txs] the order in which the map is iterated. *)
Fixpoint RemoveTxsFromMempool {M : Type} (remove : M -> Tx -> M * option error)
    (txs : list Tx) (mempool : M) : M * option error :=
  match txs with
  | [] => (mempool, None)
  | tx :: rest =>
      match remove mempool tx with
      | (mempool', Some err) => (mempool', Some err)
      | (mempool', None) => RemoveTxsFromMempool remove rest mempool'
      end
  end.

(** The total length of a sequence of byte strings. *)
Definition total_len (txs : list bytes) : Z :=
  foldr (λ tx acc, len64 tx + acc) 0 txs.

(** The bytes that the already selected transactions take, as a number
    without wrap-around. *)
Definition selectedBytes (selectedTxs : gmap string bytes) : Z :=
  foldr (λ kv acc, len64 kv.2 + acc) 0 (map_to_list selectedTxs).

(** A pool entry that passes full validation and fits the budget: it is not
    yet selected, the hook accepts it on a branch of [ctx], it carries bid
    info, every payload of its bundle wraps to a transaction that the hook
    accepts in turn and that is not itself a bid, and its encoding together
    with the encodings of its bundle fits into what the already selected
    transactions leave of [maxTxBytes]. *)
Definition qualifies (l : TOBLane) (ctx : Store) (m : Meta) (maxTxBytes : Z)
    (selectedTxs : gmap string bytes) (tx : Tx) : Prop :=
  ∃ txHash cacheCtx bidTxBz bidInfo cacheCtx' sdkTxBytes,
    getTxHashStr l tx = inl txHash
    ∧ selectedTxs !! txHash = None
    ∧ prepareProposalVerifyTx l ctx m tx = (cacheCtx, inl bidTxBz)
    ∧ GetAuctionBidInfo (af l) tx = (Some bidInfo, None)
    ∧ prepareBundle l cacheCtx m (Transactions bidInfo) = Some (cacheCtx', sdkTxBytes)
    ∧ (∀ raw refTx, raw ∈ Transactions bidInfo ->
         WrapBundleTransaction (af l) raw = inl refTx ->
         (GetAuctionBidInfo (af l) refTx).1 = None)
    ∧ total_len (bidTxBz :: sdkTxBytes) <= maxTxBytes - selectedBytes selectedTxs.

End Blockbuster.

Arguments reachable {Tx Store Meta} sha256_hex l.
Arguments lane_inv {Tx Store Meta} sha256_hex l.

(** ** A concrete wiring of the lane *)

Module Demo.

(** Transactions: ordinary ones and bids carrying an amount and a bundle. *)
Inductive tx : Type :=
| Plain (body : bytes)
| BidTx (body : bytes) (amount : Z) (bundle : list bytes).

Definition body_of (t : tx) : bytes :=
  match t with Plain b => b | BidTx b _ _ => b end.

Definition bs (s : string) : bytes := list_byte_of_string s.

(** A transaction encodes to its body, unless the body is empty; a body
    starting with [!] is rejected by the validation hook, one starting with
    [B] wraps to a bid. *)
Definition encoder (t : tx) : result bytes :=
  match body_of t with
  | [] => inr (ErrExternal "empty body")
  | bz => inl bz
  end.
Definition decoder (bz : bytes) : result tx := inl (Plain bz).

Definition starts_with (c : Byte.byte) (bz : bytes) : bool :=
  match bz with
  | c' :: _ => Byte.eqb c c'
  | [] => false
  end.

(** The store is the log of the bodies the hook has executed. *)
Definition hook (s : list bytes) (m : unit) (t : tx) (simulate : bool)
    : list bytes * unit * option error :=
  if starts_with Byte.x21 (body_of t)
  then ((s ++ [body_of t])%list, m, Some (ErrExternal "rejected"))
  else ((s ++ [body_of t])%list, m, None).

Definition factory : @AuctionFactory tx :=
  {| GetAuctionBidInfo t :=
       match t with
       | Plain _ => (None, None)
       | BidTx _ a bundle =>
           (Some {| Bidder := "bidder"; Bid := a; Transactions := bundle; Timeout := 0 |},
            None)
       end;
     WrapBundleTransaction raw :=
       if starts_with Byte.x42 raw then inl (BidTx raw 1 []) else inl (Plain raw) |}.

Definition priority (t : tx) : Z :=
  match t with Plain _ => 0 | BidTx _ a _ => a end.

Definition hash : bytes -> string := string_of_list_byte.

Definition lane : Type := @TOBLane tx (list bytes) unit.

Definition new_lane (fault : tx -> option string) : lane :=
  NewTOBLane hash decoder encoder 10 factory (Some hook) priority fault.

Definition empty_lane : lane := new_lane (λ _, None).

Definition inserts (l : lane) (ts : list tx) : lane :=
  foldl (λ l t, (Insert hash l t).1) l ts.

(** Bid [bidA] (100) with bundle [x, y], bid [bidB] (50) with bundle [z],
    bid [bidC] (70) whose bundle element is rejected by the hook, bid [bidN]
    (60) whose bundle holds a bid, bid [bidS] (10) without a bundle, and a
    transaction [bidU] that cannot be encoded. *)
Definition bidA : tx := BidTx (bs "AAAAA") 100 [bs "x"; bs "y"].
Definition bidB : tx := BidTx (bs "bbb") 50 [bs "z"].
Definition bidC : tx := BidTx (bs "ccc") 70 [bs "!bad"].
Definition bidN : tx := BidTx (bs "nnn") 60 [bs "Bid"].
Definition bidS : tx := BidTx (bs "sss") 10 [].
Definition bidU : tx := BidTx [] 80 [].

Definition lane_ABC : lane := inserts empty_lane [bidB; bidA; bidC].
Definition lane_AB : lane := inserts empty_lane [bidB; bidA].
Definition lane_A : lane := inserts empty_lane [bidA].
Definition lane_C : lane := inserts empty_lane [bidC].
Definition lane_N : lane := inserts empty_lane [bidN].
Definition lane_S : lane := inserts empty_lane [bidS].

(** The pool of [lane_ABC] when it refuses to remove [bidC]. *)
Definition no_signer (t : tx) : option string :=
  if starts_with Byte.x63 (body_of t) then Some "no signer" else None.
Definition lane_ABC_faulty : lane := inserts (new_lane no_signer) [bidB; bidA; bidC].

(** A pool that was handed [bidU] behind the lane's back. *)
Definition lane_U : lane :=
  lane_with empty_lane (pool_with (index empty_lane) [("", bidU); ("bbb", bidB)]) {["bbb"]}.

(** The lane with bid [bidA] and no ante handler. *)
Definition lane_nohook : lane :=
  inserts (NewTOBLane hash decoder encoder 10 factory None priority (λ _, None)) [bidA].

(** Three bytes selected by an earlier lane. *)
Definition earlier : gmap string bytes := {[ "k" := bs "qqq" ]}.

(** Bid [bidA] selected by an earlier lane. *)
Definition A_selected : gmap string bytes := {[ hash (bs "AAAAA") := bs "AAAAA" ]}.

End Demo.

(** ** Properties *)

Section Properties.

Context {Tx Store Meta : Type} (sha256_hex : bytes -> string).

Implicit Types (l : @TOBLane Tx Store Meta) (p : @PriorityMempool Tx)
  (tx : Tx) (es : list (string * Tx)).

Local Abbreviation hash_of := (getTxHashStr sha256_hex).

(** *** The pool keeps its order and its keys *)

Lemma insert_by_priority_perm (prio : Tx -> Z) (e : string * Tx) es :
  insert_by_priority prio e es ≡ₚ e :: es.
Proof.
  induction es as [|e' es IH]; simpl; [done|].
  destruct (prio e'.2 <? prio e.2); [done|].
  rewrite IH. apply Permutation_swap.
Qed.

Lemma insert_by_priority_sorted (prio : Tx -> Z) (e : string * Tx) es :
  StronglySorted (λ a b, prio b.2 <= prio a.2) es ->
  StronglySorted (λ a b, prio b.2 <= prio a.2) (insert_by_priority prio e es).
Proof.
  induction 1 as [|e' es Hs IH Hall]; simpl.
  - repeat constructor.
  - destruct (Z.ltb_spec (prio e'.2) (prio e.2)) as [Hlt|Hge].
    + constructor; [by constructor|].
      constructor; [lia|].
      eapply Forall_impl; [exact Hall|]. simpl. intros; lia.
    + constructor; [exact IH|].
      rewrite insert_by_priority_perm. by constructor.
Qed.

Lemma filter_keys_sorted (R : relation (string * Tx)) (k : string) es :
  StronglySorted R es -> StronglySorted R (filter (λ e, e.1 ≠ k) es).
Proof.
  induction 1 as [|e es Hs IH Hall]; [constructor|].
  rewrite filter_cons. case_decide; [|done].
  constructor; [done|].
  apply Forall_forall. intros x [_ Hx]%list_elem_of_filter.
  by eapply Forall_forall in Hall.
Qed.

Lemma filter_keys_nodup (k : string) es :
  NoDup es.*1 -> NoDup (filter (λ e, e.1 ≠ k) es).*1.
Proof.
  intros Hnd. eapply sublist_NoDup; [exact Hnd|].
  apply fmap_sublist, sublist_filter.
Qed.

Lemma filter_keys_elem (k k' : string) es :
  k' ∈ (filter (λ e, e.1 ≠ k) es).*1 <-> k' ∈ es.*1 ∧ k' ≠ k.
Proof.
  rewrite !list_elem_of_fmap. split.
  - intros (e & -> & [Hne Hin]%list_elem_of_filter). eauto.
  - intros [(e & -> & Hin) Hne]. exists e. split; [done|].
    by apply list_elem_of_filter.
Qed.

(** A key that is absent is not touched by a removal. *)
Lemma filter_keys_absent (k : string) es :
  k ∉ es.*1 -> filter (λ e, e.1 ≠ k) es = es.
Proof.
  induction es as [|e es IH]; [done|]. rewrite fmap_cons, not_elem_of_cons.
  intros [Hne Hnin]. rewrite filter_cons. case_decide; [|congruence].
  by rewrite IH.
Qed.

(** *** Insert and Remove on a lane whose pool is keyed by the lane's hash *)

Lemma lane_with_id l : lane_with l (index l) (txIndex l) = l.
Proof. by destruct l. Qed.

Lemma pool_with_id p : pool_with p (entries p) = p.
Proof. by destruct p. Qed.

Lemma purge_nil l : purge l [] = l.
Proof.
  unfold purge. rewrite list_to_set_nil, difference_empty_L.
  replace (filter _ (entries (index l))) with (entries (index l)).
  - by rewrite pool_with_id, lane_with_id.
  - induction (entries (index l)) as [|e es IH]; [done|].
    rewrite filter_cons. case_decide as Hn; [by rewrite <- IH|].
    exfalso. by apply not_elem_of_nil in Hn.
Qed.

Lemma purge_purge l hs1 hs2 : purge (purge l hs1) hs2 = purge l (hs1 ++ hs2).
Proof.
  unfold purge, lane_with, pool_with; simpl. f_equal.
  - f_equal. rewrite list_filter_filter. apply list_filter_iff.
    intros e. rewrite not_elem_of_app. tauto.
  - rewrite list_to_set_app_L. apply set_eq. intros x.
    rewrite !elem_of_difference, elem_of_union. tauto.
Qed.

Lemma Insert_hash_error l tx err :
  hash_of l tx = inr err -> Insert sha256_hex l tx = (l, Some err).
Proof. unfold Insert. by intros ->. Qed.

Lemma Insert_duplicate l tx h :
  identity (index l) = GetTxHashStr sha256_hex (txEncoder l) ->
  hash_of l tx = inl h -> h ∈ pool_keys (index l) ->
  Insert sha256_hex l tx
  = (l, Some (ErrWrap "failed to insert tx into auction index" ErrDuplicate)).
Proof.
  intros Hid Hh Hin. unfold Insert, pool_Insert. rewrite Hh, Hid.
  unfold getTxHashStr in Hh. rewrite Hh.
  rewrite bool_decide_eq_true_2 by done. by rewrite lane_with_id.
Qed.

Lemma Insert_full l tx h :
  identity (index l) = GetTxHashStr sha256_hex (txEncoder l) ->
  hash_of l tx = inl h -> h ∉ pool_keys (index l) ->
  MaxTx (index l) <= Z.of_nat (length (entries (index l))) ->
  Insert sha256_hex l tx
  = (l, Some (ErrWrap "failed to insert tx into auction index" ErrCapacity)).
Proof.
  intros Hid Hh Hin Hfull. unfold Insert, pool_Insert. rewrite Hh, Hid.
  unfold getTxHashStr in Hh. rewrite Hh.
  rewrite bool_decide_eq_false_2 by done.
  destruct (Z.leb_spec (MaxTx (index l)) (Z.of_nat (length (entries (index l)))));
    [|lia].
  by rewrite lane_with_id.
Qed.

Lemma Insert_fresh l tx h :
  identity (index l) = GetTxHashStr sha256_hex (txEncoder l) ->
  hash_of l tx = inl h -> h ∉ pool_keys (index l) ->
  Z.of_nat (length (entries (index l))) < MaxTx (index l) ->
  Insert sha256_hex l tx
  = (lane_with l
       (pool_with (index l)
          (insert_by_priority (TxPriority (index l)) (h, tx) (entries (index l))))
       ({[h]} ∪ txIndex l), None).
Proof.
  intros Hid Hh Hin Hroom. unfold Insert, pool_Insert. rewrite Hh, Hid.
  unfold getTxHashStr in Hh. rewrite Hh.
  rewrite bool_decide_eq_false_2 by done.
  destruct (Z.leb_spec (MaxTx (index l)) (Z.of_nat (length (entries (index l)))));
    [lia|done].
Qed.

(** The four ways an [Insert] can end. *)
Lemma Insert_cases l tx :
  identity (index l) = GetTxHashStr sha256_hex (txEncoder l) ->
  (∃ err, hash_of l tx = inr err ∧ Insert sha256_hex l tx = (l, Some err))
  ∨ (∃ h err, hash_of l tx = inl h ∧ Insert sha256_hex l tx = (l, Some err))
  ∨ (∃ h, hash_of l tx = inl h ∧ (h ∉ pool_keys (index l)) ∧
       Insert sha256_hex l tx
       = (lane_with l
            (pool_with (index l)
               (insert_by_priority (TxPriority (index l)) (h, tx) (entries (index l))))
            ({[h]} ∪ txIndex l), None)).
Proof.
  intros Hid. destruct (hash_of l tx) as [h|err] eqn:Hh.
  - right. destruct (decide (h ∈ pool_keys (index l))) as [Hin|Hnin].
    { left. eauto using Insert_duplicate. }
    destruct (Z_lt_le_dec (Z.of_nat (length (entries (index l)))) (MaxTx (index l))).
    + right. eauto using Insert_fresh.
    + left. eauto using Insert_full.
  - left. eauto using Insert_hash_error.
Qed.

Lemma Remove_hash_error l tx err :
  hash_of l tx = inr err ->
  Remove sha256_hex l tx = (l, Some (ErrWrap "failed to get tx hash string" err)).
Proof. unfold Remove. by intros ->. Qed.

Lemma Remove_fault l tx h what :
  hash_of l tx = inl h -> removeFault (index l) tx = Some what ->
  Remove sha256_hex l tx
  = (l, Some (ErrWrap "failed to remove invalid transaction from the mempool"
                (ErrExternal what))).
Proof.
  intros Hh Hf. unfold Remove, pool_Remove. rewrite Hh, Hf. simpl.
  by rewrite lane_with_id.
Qed.

Lemma Remove_ok l tx h :
  identity (index l) = GetTxHashStr sha256_hex (txEncoder l) ->
  hash_of l tx = inl h -> removeFault (index l) tx = None ->
  Remove sha256_hex l tx = (purge l [h], None).
Proof.
  intros Hid Hh Hf. unfold Remove, pool_Remove. rewrite Hh, Hf, Hid.
  unfold getTxHashStr in Hh. rewrite Hh.
  assert (Hflt : ∀ es, filter (λ e, e.1 ∉ [h]) es = filter (λ e, e.1 ≠ h) es).
  { intros es. apply list_filter_iff. intros e. by rewrite list_elem_of_singleton. }
  assert (Hset : list_to_set [h] = ({[h]} : gset string)).
  { simpl. apply right_id_L, _. }
  unfold purge. rewrite Hflt, Hset.
  case_bool_decide as Hin; simpl; [done|].
  by rewrite (filter_keys_absent _ _ Hin), pool_with_id.
Qed.

(** *** The bookkeeping invariant *)

Lemma purge_keys l hs :
  pool_keys (index (purge l hs)) = filter (λ k, k ∉ hs) (pool_keys (index l)).
Proof.
  unfold purge, pool_keys; simpl.
  induction (entries (index l)) as [|e es IH]; [done|].
  rewrite fmap_cons, !filter_cons.
  destruct (decide (e.1 ∉ hs)); [rewrite fmap_cons|]; by rewrite IH.
Qed.

Lemma purge_inv l hs : lane_inv sha256_hex l -> lane_inv sha256_hex (purge l hs).
Proof.
  intros [Hid Hh Hnd Hix Hs]. split.
  - exact Hid.
  - simpl. apply Forall_forall. intros e [_ He]%list_elem_of_filter.
    by eapply Forall_forall in Hh.
  - rewrite purge_keys. by apply NoDup_filter.
  - rewrite purge_keys. simpl. rewrite Hix. apply set_eq. intros k.
    rewrite elem_of_difference, !elem_of_list_to_set, list_elem_of_filter. tauto.
  - simpl. clear -Hs. induction Hs as [|e es Hs IH Hall]; [constructor|].
    rewrite filter_cons. case_decide; [|done].
    constructor; [done|].
    apply Forall_forall. intros x [_ Hx]%list_elem_of_filter.
    by eapply Forall_forall in Hall.
Qed.

Lemma Insert_inv l tx : lane_inv sha256_hex l -> lane_inv sha256_hex (Insert sha256_hex l tx).1.
Proof.
  intros Hinv. pose proof Hinv as [Hid Hh Hnd Hix Hs].
  destruct (Insert_cases l tx Hid)
    as [(err & _ & ->)|[(h & err & _ & ->)|(h & Hhash & Hnin & ->)]]; [done..|].
  simpl. split; simpl.
  - exact Hid.
  - rewrite insert_by_priority_perm. constructor; [exact Hhash | exact Hh].
  - unfold pool_keys; simpl. rewrite insert_by_priority_perm.
    rewrite fmap_cons. by constructor.
  - unfold pool_keys; simpl. rewrite insert_by_priority_perm.
    rewrite fmap_cons, list_to_set_cons. by rewrite Hix.
  - by apply insert_by_priority_sorted.
Qed.

Lemma Remove_cases l tx :
  identity (index l) = GetTxHashStr sha256_hex (txEncoder l) ->
  (∃ err, Remove sha256_hex l tx = (l, Some err))
  ∨ (∃ h, hash_of l tx = inl h ∧ removeFault (index l) tx = None ∧
          Remove sha256_hex l tx = (purge l [h], None)).
Proof.
  intros Hid. destruct (hash_of l tx) as [h|err] eqn:Hh.
  - destruct (removeFault (index l) tx) as [what|] eqn:Hf.
    + left. eauto using Remove_fault.
    + right. eauto using Remove_ok.
  - left. eauto using Remove_hash_error.
Qed.

Lemma Remove_inv l tx : lane_inv sha256_hex l -> lane_inv sha256_hex (Remove sha256_hex l tx).1.
Proof.
  intros Hinv.
  destruct (Remove_cases l tx (inv_identity _ _ Hinv))
    as [(err & ->)|(h & _ & _ & ->)]; [done|].
  by apply purge_inv.
Qed.

Lemma reachable_inv l : reachable sha256_hex l -> lane_inv sha256_hex l.
Proof.
  induction 1 as [dec enc maxTx fac ah prio fault|l tx _ IH|l tx _ IH].
  - split; simpl; try done; constructor.
  - by apply Insert_inv.
  - by apply Remove_inv.
Qed.

(** *** Membership index and pool *)

Lemma pool_entry_hash l tx :
  lane_inv sha256_hex l -> tx ∈ Select l ->
  ∃ h, hash_of l tx = inl h ∧ h ∈ pool_keys (index l).
Proof.
  intros Hinv (e & -> & He)%list_elem_of_fmap.
  exists e.1. split.
  - by eapply Forall_forall in He; [|exact (inv_hashes _ _ Hinv)].
  - apply list_elem_of_fmap. eauto.
Qed.

Lemma pool_key_entry l h :
  lane_inv sha256_hex l -> h ∈ pool_keys (index l) ->
  ∃ tx, tx ∈ Select l ∧ hash_of l tx = inl h.
Proof.
  intros Hinv (e & -> & He)%list_elem_of_fmap.
  exists e.2. split.
  - apply list_elem_of_fmap. eauto.
  - by eapply Forall_forall in He; [|exact (inv_hashes _ _ Hinv)].
Qed.

Lemma Contains_true l tx :
  Contains sha256_hex l tx = inl true <->
  ∃ h, hash_of l tx = inl h ∧ h ∈ txIndex l.
Proof.
  unfold Contains. destruct (hash_of l tx) as [h|err]; split.
  - intros [= Hb%bool_decide_eq_true]. eauto.
  - intros (h' & [= <-] & Hin). by rewrite bool_decide_eq_true_2.
  - done.
  - by intros (h' & [=] & _).
Qed.

Lemma Contains_false l tx :
  Contains sha256_hex l tx = inl false <->
  ∃ h, hash_of l tx = inl h ∧ h ∉ txIndex l.
Proof.
  unfold Contains. destruct (hash_of l tx) as [h|err]; split.
  - intros [= Hb%bool_decide_eq_false]. eauto.
  - intros (h' & [= <-] & Hin). by rewrite bool_decide_eq_false_2.
  - done.
  - by intros (h' & [=] & _).
Qed.

(** C7, amended by the error return of [Remove].  In every lane state reached
    from a new lane by [Insert]s and [Remove]s, a hash is in the membership
    index exactly when it is the identity of a transaction of the pool, the
    index has as many hashes as the pool counts transactions, [Contains]
    answers true right after a successful [Insert] and false right after a
    [Remove] that returns no error; and [Remove] returns no error, takes the
    transaction out of the pool and makes [Contains] answer false for every
    transaction that can be hashed, an inserted one in particular, unless the
    pool refuses the removal with an error other than not-found. *)
Theorem index_matches_pool l :
  reachable sha256_hex l ->
  (∀ h, h ∈ txIndex l <-> h ∈ pool_keys (index l))
  ∧ (∀ h, h ∈ txIndex l <-> ∃ tx, tx ∈ Select l ∧ hash_of l tx = inl h)
  ∧ size (txIndex l) = CountTx l
  ∧ (∀ tx l', Insert sha256_hex l tx = (l', None) ->
       Contains sha256_hex l' tx = inl true)
  ∧ (∀ tx l', Remove sha256_hex l tx = (l', None) ->
       Contains sha256_hex l' tx = inl false)
  ∧ (∀ tx, (∃ h, hash_of l tx = inl h) -> removeFault (index l) tx = None ->
       ∃ l', Remove sha256_hex l tx = (l', None)
             ∧ Contains sha256_hex l' tx = inl false
             ∧ (tx ∉ Select l')
             ∧ reachable sha256_hex l').
Proof.
  intros Hreach. pose proof (reachable_inv l Hreach) as Hinv.
  pose proof Hinv as [Hid Hh Hnd Hix Hs].
  assert (Hgone : ∀ tx h, hash_of l tx = inl h ->
            Contains sha256_hex (purge l [h]) tx = inl false).
  { intros tx h Hhash. apply Contains_false. exists h. split; [exact Hhash|].
    change (txIndex (purge l [h])) with (txIndex l ∖ list_to_set [h]).
    rewrite elem_of_difference, elem_of_list_to_set, list_elem_of_singleton.
    tauto. }
  split_and!.
  - intros h. by rewrite Hix, elem_of_list_to_set.
  - intros h. rewrite Hix, elem_of_list_to_set. split.
    + by apply pool_key_entry.
    + intros (tx & Hin & Hhash).
      destruct (pool_entry_hash l tx Hinv Hin) as (h' & Hh' & Hk). congruence.
  - rewrite Hix, size_list_to_set by done.
    unfold CountTx, pool_CountTx, pool_keys. by rewrite length_fmap.
  - intros tx l' Hins.
    destruct (Insert_cases l tx Hid)
      as [(err & _ & He)|[(h & err & _ & He)|(h & Hhash & _ & He)]];
      rewrite He in Hins; try discriminate.
    injection Hins as <-. apply Contains_true. exists h. split; [exact Hhash|].
    simpl. apply elem_of_union_l, elem_of_singleton. reflexivity.
  - intros tx l' Hrm.
    destruct (Remove_cases l tx Hid) as [(err & He)|(h & Hhash & _ & He)];
      rewrite He in Hrm; try discriminate.
    injection Hrm as <-. by apply Hgone.
  - intros tx [h Hhash] Hf.
    pose proof (Remove_ok l tx h Hid Hhash Hf) as Hrm.
    exists (purge l [h]). split_and!; [exact Hrm|by apply Hgone| |].
    + intros Hsel.
      destruct (pool_entry_hash (purge l [h]) tx (purge_inv l [h] Hinv) Hsel)
        as (h' & Hh' & Hk).
      change (hash_of (purge l [h]) tx) with (hash_of l tx) in Hh'.
      assert (h' = h) as -> by congruence.
      rewrite purge_keys in Hk. apply list_elem_of_filter in Hk as [Hn _].
      apply Hn. by left.
    + replace (purge l [h]) with (Remove sha256_hex l tx).1 by by rewrite Hrm.
      by constructor.
Qed.

(** C8. In a reachable lane, inserting a transaction that the lane already
    holds fails with the duplicate error of the pool, wrapped by the lane,
    and returns the lane as it was: pool and membership index are the same. *)
Theorem Insert_present_is_duplicate l tx :
  reachable sha256_hex l ->
  tx ∈ Select l ∨ Contains sha256_hex l tx = inl true ->
  Insert sha256_hex l tx
  = (l, Some (ErrWrap "failed to insert tx into auction index" ErrDuplicate)).
Proof.
  intros Hinv%reachable_inv Hpresent.
  assert (∃ h, hash_of l tx = inl h ∧ h ∈ pool_keys (index l)) as (h & Hh & Hk).
  { destruct Hpresent as [Hin|Hc]; [by apply pool_entry_hash|].
    apply Contains_true in Hc as (h & Hh & Hin). exists h. split; [done|].
    by rewrite (inv_index _ _ Hinv), elem_of_list_to_set in Hin. }
  by eapply Insert_duplicate; [apply (inv_identity _ _ Hinv)|..].
Qed.

(** *** One candidate *)

Section Candidate.

Variables (l : @TOBLane Tx Store Meta) (m : Meta) (maxTxBytes : Z)
  (selectedTxs : gmap string bytes).

Lemma prepareProposalVerifyTx_ok ctx tx ctx' txBz :
  prepareProposalVerifyTx l ctx m tx = (ctx', inl txBz) ->
  txEncoder l tx = inl txBz ∧ ctx' = (verifyTx l ctx m tx).1.1
  ∧ (verifyTx l ctx m tx).2 = None.
Proof.
  unfold prepareProposalVerifyTx. destruct (txEncoder l tx) as [bz|err]; [|done].
  destruct (verifyTx l ctx m tx) as [[c m'] [err|]]; [done|].
  by intros [= <- <-].
Qed.

Lemma prepareBundle_ok raws : ∀ ctx ctx' sdkTxBytes,
  prepareBundle l ctx m raws = Some (ctx', sdkTxBytes) ->
  ∃ refTxs,
    Forall2 (λ raw refTx, WrapBundleTransaction (af l) raw = inl refTx) raws refTxs
    ∧ Forall2 (λ refTx txBz, txEncoder l refTx = inl txBz) refTxs sdkTxBytes
    ∧ ctx' = runHook l ctx m refTxs.
Proof.
  induction raws as [|raw raws IH]; intros ctx ctx' out; simpl.
  - intros [= <- <-]. exists []. by repeat constructor.
  - destruct (WrapBundleTransaction (af l) raw) as [refTx|err] eqn:Hw; [|done].
    destruct (prepareProposalVerifyTx l ctx m refTx) as [c1 [txBz|err]] eqn:Hp; [|done].
    destruct (prepareBundle l c1 m raws) as [[c2 bzs]|] eqn:Hb; [|done].
    intros [= <- <-].
    apply prepareProposalVerifyTx_ok in Hp as (Henc & -> & _).
    destruct (IH _ _ _ Hb) as (refTxs & Hws & Hencs & ->).
    exists (refTx :: refTxs). by repeat constructor.
Qed.

Lemma selectBid_Won ctx tx ctx' bidTxBz sdkTxBytes :
  selectBid sha256_hex l ctx m maxTxBytes selectedTxs tx = Won ctx' bidTxBz sdkTxBytes <->
  ∃ txHash cacheCtx bidInfo,
    hash_of l tx = inl txHash
    ∧ selectedTxs !! txHash = None
    ∧ prepareProposalVerifyTx l ctx m tx = (cacheCtx, inl bidTxBz)
    ∧ len64 bidTxBz <= maxTxBytes
    ∧ GetAuctionBidInfo (af l) tx = (Some bidInfo, None)
    ∧ prepareBundle l cacheCtx m (Transactions bidInfo) = Some (ctx', sdkTxBytes).
Proof.
  unfold selectBid, CacheContext. split.
  - destruct (hash_of l tx) as [h|err]; [|done].
    destruct (selectedTxs !! h) eqn:Hsel; [done|].
    destruct (prepareProposalVerifyTx l ctx m tx) as [c1 [bz|err]]; [|done].
    destruct (Z.leb_spec (len64 bz) maxTxBytes); [|done].
    destruct (GetAuctionBidInfo (af l) tx) as [[info|] [err|]]; try done.
    destruct (prepareBundle l c1 m (Transactions info)) as [[c2 bzs]|] eqn:Hb; [|done].
    intros [= <- <- <-]. by exists h, c1, info.
  - intros (h & c1 & info & -> & -> & -> & Hle & -> & ->).
    by destruct (Z.leb_spec (len64 bidTxBz) maxTxBytes); [|lia].
Qed.

Lemma eligible_Won ctx tx :
  eligible sha256_hex l ctx m maxTxBytes selectedTxs tx <->
  ∃ ctx' bidTxBz sdkTxBytes,
    selectBid sha256_hex l ctx m maxTxBytes selectedTxs tx = Won ctx' bidTxBz sdkTxBytes.
Proof.
  split.
  - intros (h & c1 & bz & info & c2 & bzs & ?). exists c2, bz, bzs.
    apply selectBid_Won. by exists h, c1, info.
  - intros (c2 & bz & bzs & (h & c1 & info & ?)%selectBid_Won).
    by exists h, c1, bz, info, c2, bzs.
Qed.

(** A candidate fails the scan only when it cannot be hashed. *)
Lemma selectBid_Failed ctx tx err :
  selectBid sha256_hex l ctx m maxTxBytes selectedTxs tx = Failed err <->
  ∃ err', hash_of l tx = inr err' ∧ err = ErrWrap "failed to get bid tx hash" err'.
Proof.
  unfold selectBid, CacheContext. split.
  - destruct (hash_of l tx) as [h|err']; [|intros [= <-]; eauto].
    destruct (selectedTxs !! h); [done|].
    destruct (prepareProposalVerifyTx l ctx m tx) as [c1 [bz|?]]; [|done].
    destruct (len64 bz <=? maxTxBytes); [|done].
    destruct (GetAuctionBidInfo (af l) tx) as [[info|] [?|]]; try done.
    by destruct (prepareBundle l c1 m (Transactions info)) as [[c2 bzs]|].
  - by intros (err' & -> & ->).
Qed.

Lemma selectBid_hashed ctx tx :
  selectBid sha256_hex l ctx m maxTxBytes selectedTxs tx = Marked ∨
  selectBid sha256_hex l ctx m maxTxBytes selectedTxs tx = Skipped ->
  ∃ h, hash_of l tx = inl h.
Proof.
  unfold selectBid, CacheContext.
  destruct (hash_of l tx) as [h|err']; [eauto|]. by intros [|].
Qed.

(** A candidate whose own encoding is longer than [maxTxBytes] is marked. *)
Lemma selectBid_oversized ctx tx h cacheCtx bidTxBz :
  hash_of l tx = inl h -> selectedTxs !! h = None ->
  prepareProposalVerifyTx l ctx m tx = (cacheCtx, inl bidTxBz) ->
  maxTxBytes < len64 bidTxBz ->
  selectBid sha256_hex l ctx m maxTxBytes selectedTxs tx = Marked.
Proof.
  intros Hh Hsel Hp Hlt. unfold selectBid, CacheContext. rewrite Hh, Hsel, Hp.
  by destruct (Z.leb_spec (len64 bidTxBz) maxTxBytes); [lia|].
Qed.

End Candidate.

(** *** The scan and the removal loop *)

Section Scan.

Variables (l : @TOBLane Tx Store Meta) (m : Meta) (maxTxBytes : Z)
  (selectedTxs : gmap string bytes).

Local Abbreviation outcome_of ctx := (selectBid sha256_hex l ctx m maxTxBytes selectedTxs).
Local Abbreviation loop := (selectBidTxLoop sha256_hex l m maxTxBytes selectedTxs).

Local Abbreviation passed_over ctx :=
  (passed_over sha256_hex l ctx m maxTxBytes selectedTxs).

(** How a scan ends: without a winner, with the first candidate that wins,
    or with the first candidate that cannot be hashed.  In every case the
    marks are those of the candidates passed over before. *)
Lemma selectBidTxLoop_cases it : ∀ st,
  let ctx := real st in
  let r := loop it st in
  txsToRemove r.1
  = (txsToRemove st ++ marked sha256_hex l ctx m maxTxBytes selectedTxs it)%list
  ∧ ((r.2 = None ∧ Forall (passed_over ctx) it ∧ real r.1 = ctx
        ∧ tmpSelectedTxs r.1 = tmpSelectedTxs st
        ∧ examined sha256_hex l ctx m maxTxBytes selectedTxs it = it)
     ∨ (∃ pre w post ctx' bidTxBz sdkTxBytes,
          it = (pre ++ w :: post)%list ∧ Forall (passed_over ctx) pre
          ∧ outcome_of ctx w = Won ctx' bidTxBz sdkTxBytes
          ∧ r.2 = None ∧ real r.1 = ctx'
          ∧ tmpSelectedTxs r.1 = ((tmpSelectedTxs st ++ [bidTxBz]) ++ sdkTxBytes)%list
          ∧ examined sha256_hex l ctx m maxTxBytes selectedTxs it = (pre ++ [w])%list)
     ∨ (∃ pre w post err,
          it = (pre ++ w :: post)%list ∧ Forall (passed_over ctx) pre
          ∧ outcome_of ctx w = Failed err
          ∧ r.2 = Some err ∧ real r.1 = ctx
          ∧ examined sha256_hex l ctx m maxTxBytes selectedTxs it = (pre ++ [w])%list)).
Proof.
  induction it as [|tx it IH]; intros st; simpl.
  - split; [by rewrite app_nil_r|]. left. by repeat split.
  - destruct (outcome_of (real st) tx) as [err| | |ctx' bz bzs] eqn:Ho; simpl.
    + split; [by rewrite app_nil_r|]. right; right.
      exists [], tx, it, err. by repeat split.
    + destruct (IH st) as [Hm Hc]. split; [exact Hm|].
      destruct Hc as [(?&?&?&?&He)|[(pre&w&post&c&bz&bzs&->&?&?&?&?&?&He)
                                   |(pre&w&post&err&->&?&?&?&?&He)]].
      * left. rewrite He. repeat split; try done. constructor; [by left|done].
      * right; left. exists (tx :: pre), w, post, c, bz, bzs. rewrite He.
        repeat split; try done. constructor; [by left|done].
      * right; right. exists (tx :: pre), w, post, err. rewrite He.
        repeat split; try done. constructor; [by left|done].
    + destruct (IH (mark tx st)) as [Hm Hc]. simpl in Hm, Hc.
      split; [by rewrite Hm, <- app_assoc|].
      destruct Hc as [(?&?&?&?&He)|[(pre&w&post&c&bz&bzs&->&?&?&?&?&?&He)
                                   |(pre&w&post&err&->&?&?&?&?&He)]].
      * left. rewrite He. repeat split; try done. constructor; [by right|done].
      * right; left. exists (tx :: pre), w, post, c, bz, bzs. rewrite He.
        repeat split; try done. constructor; [by right|done].
      * right; right. exists (tx :: pre), w, post, err. rewrite He.
        repeat split; try done. constructor; [by right|done].
    + split; [by rewrite app_nil_r|]. right; left.
      exists [], tx, it, ctx', bz, bzs. by repeat split.
Qed.

Lemma marked_elem ctx it tx :
  tx ∈ marked sha256_hex l ctx m maxTxBytes selectedTxs it ->
  tx ∈ examined sha256_hex l ctx m maxTxBytes selectedTxs it
  ∧ outcome_of ctx tx = Marked.
Proof.
  induction it as [|tx' it IH]; simpl; [by intros ?%not_elem_of_nil|].
  destruct (outcome_of ctx tx') eqn:Ho; try by intros ?%not_elem_of_nil.
  - intros [Hin Hm]%IH. split; [by right|done].
  - intros [->|[Hin Hm]%IH]%elem_of_cons; split; try done; [by left|by right].
Qed.

Lemma examined_marked ctx it tx :
  tx ∈ examined sha256_hex l ctx m maxTxBytes selectedTxs it ->
  outcome_of ctx tx = Marked ->
  tx ∈ marked sha256_hex l ctx m maxTxBytes selectedTxs it.
Proof.
  induction it as [|tx' it IH]; simpl; [by intros ?%not_elem_of_nil|].
  destruct (outcome_of ctx tx') eqn:Ho.
  - intros ->%list_elem_of_singleton. congruence.
  - intros [->|Hin]%elem_of_cons Hm; [congruence|by apply IH].
  - intros [->|Hin]%elem_of_cons Hm; [by left|right; by apply IH].
  - intros ->%list_elem_of_singleton. congruence.
Qed.

Lemma examined_sublist ctx it tx :
  tx ∈ examined sha256_hex l ctx m maxTxBytes selectedTxs it -> tx ∈ it.
Proof.
  induction it as [|tx' it IH]; simpl; [done|].
  destruct (outcome_of ctx tx');
    try (intros [->|Hin]%elem_of_cons; [by left|right; by apply IH]);
    intros ->%list_elem_of_singleton; by left.
Qed.

End Scan.

(** The removal loop on marks that can all be hashed: it succeeds exactly when
    no mark has a removal failure, and then purges the marks' hashes. *)
Lemma removeAll_cases txs : ∀ l,
  identity (index l) = GetTxHashStr sha256_hex (txEncoder l) ->
  Forall (λ tx, ∃ h, hash_of l tx = inl h) txs ->
  (∃ hs, Forall2 (λ tx h, hash_of l tx = inl h) txs hs
     ∧ Forall (λ tx, removeFault (index l) tx = None) txs
     ∧ removeAll sha256_hex l txs = (purge l hs, None))
  ∨ (∃ tx what l', tx ∈ txs ∧ removeFault (index l) tx = Some what
     ∧ removeAll sha256_hex l txs
       = (l', Some (ErrWrap "failed to remove invalid transaction from the mempool"
                      (ErrExternal what)))).
Proof.
  induction txs as [|tx txs IH]; intros l Hid Hall.
  - left. exists []. rewrite purge_nil. by repeat constructor.
  - apply Forall_cons in Hall as [[h Hh] Hall]. simpl.
    destruct (removeFault (index l) tx) as [what|] eqn:Hf.
    + right. exists tx, what, l. rewrite (Remove_fault l tx h what Hh Hf).
      split; [by left|done].
    + rewrite (Remove_ok l tx h Hid Hh Hf).
      destruct (IH (purge l [h]) Hid Hall)
        as [(hs & Hhs & Hfs & ->)|(tx' & what & l' & Hin & Hf' & ->)].
      * left. exists (h :: hs). rewrite purge_purge.
        repeat split; [by constructor|by constructor].
      * right. exists tx', what, l'. split; [by right|done].
Qed.

(** *** The whole call *)

Section Prepare.

Variables (l : @TOBLane Tx Store Meta) (ctx : Store) (m : Meta) (maxTxBytes : Z)
  (selectedTxs : gmap string bytes).

Local Abbreviation outcome_of := (selectBid sha256_hex l ctx m maxTxBytes selectedTxs).
Local Abbreviation passed := (passed_over sha256_hex l ctx m maxTxBytes selectedTxs).
Local Abbreviation marks := (marked sha256_hex l ctx m maxTxBytes selectedTxs (Select l)).
Local Abbreviation seen := (examined sha256_hex l ctx m maxTxBytes selectedTxs (Select l)).
Local Abbreviation call := (PrepareLane sha256_hex l ctx m maxTxBytes selectedTxs).

Lemma marks_hashed : Forall (λ tx, ∃ h, hash_of l tx = inl h) marks.
Proof.
  apply Forall_forall. intros tx [_ Hm]%marked_elem.
  eapply selectBid_hashed. left. exact Hm.
Qed.

(** Every way [PrepareLane] can end.  Either the scan ends without a winner
    or with its first winner, and then the marks are removed, which fails on a
    mark with a removal failure and otherwise purges the hashes of all marks;
    or the scan stops at the first candidate that cannot be hashed. *)
Lemma PrepareLane_cases :
  identity (index l) = GetTxHashStr sha256_hex (txEncoder l) ->
  (∃ ctx' out,
      ((Forall passed (Select l) ∧ ctx' = ctx ∧ out = [] ∧ seen = Select l)
       ∨ (∃ pre w post bidTxBz sdkTxBytes,
            Select l = (pre ++ w :: post)%list ∧ Forall passed pre
            ∧ outcome_of w = Won ctx' bidTxBz sdkTxBytes
            ∧ out = bidTxBz :: sdkTxBytes ∧ seen = (pre ++ [w])%list))
      ∧ ((∃ hs, Forall2 (λ tx h, hash_of l tx = inl h) marks hs
            ∧ Forall (λ tx, removeFault (index l) tx = None) marks
            ∧ call = (ctx', purge l hs, inl out))
         ∨ (∃ tx what l', tx ∈ marks ∧ removeFault (index l) tx = Some what
            ∧ call
              = (ctx', l',
                 inr (ErrWrap "failed to remove invalid transaction from the mempool"
                        (ErrExternal what))))))
  ∨ (∃ pre w post err,
       Select l = (pre ++ w :: post)%list ∧ Forall passed pre
       ∧ hash_of l w = inr err ∧ seen = (pre ++ [w])%list
       ∧ call = (ctx, l, inr (ErrWrap "failed to get bid tx hash" err))).
Proof.
  intros Hid. unfold PrepareLane.
  destruct (selectBidTxLoop_cases l m maxTxBytes selectedTxs (Select l)
              (scan_init ctx selectedTxs)) as [Hm Hc].
  unfold Select in *. simpl in Hm, Hc.
  destruct (selectBidTxLoop _ _ _ _ _ _ _) as [st oerr]. simpl in Hm, Hc.
  pose proof (removeAll_cases marks l Hid marks_hashed) as Hrm.
  unfold Select in Hrm. rewrite Hm. clear Hm.
  destruct Hc as [(->&Hall&Hreal&Hsel&He)
                 |[(pre&w&post&c&bz&bzs&Hit&Hall&Hw&->&Hreal&Hsel&He)
                  |(pre&w&post&err&Hit&Hall&Hw&->&Hreal&He)]].
  - left. exists ctx, []. split; [left; by repeat split|].
    rewrite Hreal, Hsel.
    destruct Hrm as [(hs&?&?&->)|(tx&what&l'&?&?&->)]; [left|right]; eauto 10.
  - left. exists c, (bz :: bzs). split; [right; exists pre, w, post, bz, bzs; by repeat split|].
    rewrite Hreal, Hsel.
    destruct Hrm as [(hs&?&?&->)|(tx&what&l'&?&?&->)]; [left|right]; eauto 10.
  - right. apply selectBid_Failed in Hw as (err' & Hh & ->).
    exists pre, w, post, err'. rewrite Hreal. by repeat split.
Qed.

End Prepare.

(** *** Errors and the caller's store *)

Lemma Forall2_elem_l {A B} (P : A -> B -> Prop) (xs : list A) (ys : list B) x :
  Forall2 P xs ys -> x ∈ xs -> ∃ y, y ∈ ys ∧ P x y.
Proof.
  induction 1 as [|x' y' xs ys HP _ IH]; [by intros ?%not_elem_of_nil|].
  intros [->|Hin]%elem_of_cons.
  - exists y'. split; [by left|done].
  - destruct (IH Hin) as (y & ? & ?). exists y. split; [by right|done].
Qed.

Lemma Forall2_elem_r {A B} (P : A -> B -> Prop) (xs : list A) (ys : list B) y :
  Forall2 P xs ys -> y ∈ ys -> ∃ x, x ∈ xs ∧ P x y.
Proof.
  induction 1 as [|x' y' xs ys HP _ IH]; [by intros ?%not_elem_of_nil|].
  intros [->|Hin]%elem_of_cons.
  - exists x'. split; [by left|done].
  - destruct (IH Hin) as (x & ? & ?). exists x. split; [by right|done].
Qed.

Lemma passed_over_hashed l ctx m maxTxBytes selectedTxs tx :
  passed_over sha256_hex l ctx m maxTxBytes selectedTxs tx -> ∃ h, hash_of l tx = inl h.
Proof. intros [?|?]; eapply selectBid_hashed; eauto. Qed.

Lemma passed_over_not_eligible l ctx m maxTxBytes selectedTxs tx :
  passed_over sha256_hex l ctx m maxTxBytes selectedTxs tx ->
  ¬ eligible sha256_hex l ctx m maxTxBytes selectedTxs tx.
Proof.
  intros Hp (c & bz & bzs & Hw)%eligible_Won. destruct Hp; congruence.
Qed.

(** C6. On a lane whose pool is keyed by the lane's transaction hash,
    [PrepareLane] returns an error exactly when a candidate that the scan
    reaches cannot be hashed or a marked transaction cannot be removed for a
    reason other than not-found; the error is then one of these two.  A
    candidate that can be hashed never ends the scan with an error: if it is
    not already selected and not eligible, it is marked. *)
Theorem PrepareLane_error_iff l ctx m maxTxBytes selectedTxs :
  identity (index l) = GetTxHashStr sha256_hex (txEncoder l) ->
  ((∃ err, (PrepareLane sha256_hex l ctx m maxTxBytes selectedTxs).2 = inr err)
   <-> (∃ tx err, tx ∈ examined sha256_hex l ctx m maxTxBytes selectedTxs (Select l)
                  ∧ hash_of l tx = inr err)
       ∨ (∃ tx what, tx ∈ marked sha256_hex l ctx m maxTxBytes selectedTxs (Select l)
                     ∧ removeFault (index l) tx = Some what))
  ∧ (∀ err, (PrepareLane sha256_hex l ctx m maxTxBytes selectedTxs).2 = inr err ->
       (∃ err', err = ErrWrap "failed to get bid tx hash" err')
       ∨ (∃ what, err = ErrWrap "failed to remove invalid transaction from the mempool"
                          (ErrExternal what)))
  ∧ (∀ tx h, hash_of l tx = inl h -> selectedTxs !! h = None ->
       ¬ eligible sha256_hex l ctx m maxTxBytes selectedTxs tx ->
       selectBid sha256_hex l ctx m maxTxBytes selectedTxs tx = Marked).
Proof.
  intros Hid.
  pose proof (PrepareLane_cases l ctx m maxTxBytes selectedTxs Hid) as Hc.
  split_and!.
  - destruct Hc as [(c & out & Hscan & [(hs & Hhs & Hnf & ->)|(tx & what & l' & Hin & Hf & ->)])
                   |(pre & w & post & err & Hit & Hpre & Hh & Hseen & ->)]; simpl.
    + split; [by intros [? ?]|]. intros [(tx & err & Hin & Hh)|(tx & what & Hin & Hf)].
      * exfalso.
        destruct Hscan as [(Hall & _ & _ & Hseen)
                          |(pre & w & post & bz & bzs & Hit & Hpre & Hw & _ & Hseen)];
          rewrite Hseen in Hin.
        -- eapply Forall_forall in Hall; [|exact Hin].
           apply passed_over_hashed in Hall as [h ?]. congruence.
        -- apply elem_of_app in Hin as [Hin| ->%list_elem_of_singleton].
           ++ eapply Forall_forall in Hpre; [|exact Hin].
              apply passed_over_hashed in Hpre as [h ?]. congruence.
           ++ apply selectBid_Won in Hw as (h & ? & ? & ? & _). congruence.
      * exfalso. eapply Forall_forall in Hnf; [|exact Hin]. congruence.
    + split; [|eauto]. intros _. right. eauto.
    + split; [|eauto]. intros _. left. exists w, err. split; [|done].
      rewrite Hseen. apply elem_of_app. right. by left.
  - intros err.
    destruct Hc as [(c & out & Hscan & [(hs & Hhs & Hnf & ->)|(tx & what & l' & Hin & Hf & ->)])
                   |(pre & w & post & err' & Hit & Hpre & Hh & Hseen & ->)]; simpl.
    + done.
    + intros [= <-]. right. eauto.
    + intros [= <-]. left. eauto.
  - intros tx h Hh Hsel Hne.
    destruct (selectBid sha256_hex l ctx m maxTxBytes selectedTxs tx)
      as [err| | |c bz bzs] eqn:Ho; [| |done|].
    + apply selectBid_Failed in Ho as (err' & ? & _). congruence.
    + unfold selectBid, CacheContext in Ho. rewrite Hh, Hsel in Ho.
      destruct (prepareProposalVerifyTx l ctx m tx) as [c1 [bz|?]]; [|done].
      destruct (len64 bz <=? maxTxBytes); [|done].
      destruct (GetAuctionBidInfo (af l) tx) as [[info|] [?|]]; try done.
      by destruct (prepareBundle l c1 m (Transactions info)) as [[c2 bzs]|].
    + exfalso. apply Hne, eligible_Won. eauto.
Qed.

(** C4. Candidates are validated on a branch of the caller's store, and the
    branch is written back only for the candidate that wins.  If no candidate
    that the scan reaches is eligible, the caller's store after the call is
    the store before it, whatever the hook did on the branches; if one is,
    the store after the call is the store before it with the hook run once on
    that bid and once on each transaction of its bundle, in order, and on
    nothing else.  A candidate that is passed over leaves the store of the
    scan as it is. *)
Theorem PrepareLane_commits_only_winner l ctx m maxTxBytes selectedTxs :
  let ctx' := (PrepareLane sha256_hex l ctx m maxTxBytes selectedTxs).1.1 in
  let seen := examined sha256_hex l ctx m maxTxBytes selectedTxs (Select l) in
  ((∀ tx, tx ∈ seen -> ¬ eligible sha256_hex l ctx m maxTxBytes selectedTxs tx) ->
     ctx' = ctx)
  ∧ (∀ w, w ∈ seen -> eligible sha256_hex l ctx m maxTxBytes selectedTxs w ->
       ∃ bidInfo refTxs,
         GetAuctionBidInfo (af l) w = (Some bidInfo, None)
         ∧ Forall2 (λ raw refTx, WrapBundleTransaction (af l) raw = inl refTx)
             (Transactions bidInfo) refTxs
         ∧ ctx' = runHook l ctx m (w :: refTxs))
  ∧ (∀ tx rest st,
       passed_over sha256_hex l (real st) m maxTxBytes selectedTxs tx ->
       ∃ st', selectBidTxLoop sha256_hex l m maxTxBytes selectedTxs (tx :: rest) st
              = selectBidTxLoop sha256_hex l m maxTxBytes selectedTxs rest st'
              ∧ real st' = real st).
Proof.
  intros ctx' seen.
  assert (Hstore : ctx' = real (selectBidTxLoop sha256_hex l m maxTxBytes selectedTxs
                                  (Select l) (scan_init ctx selectedTxs)).1).
  { subst ctx'. unfold PrepareLane, Select.
    destruct (selectBidTxLoop _ _ _ _ _ _ _) as [st [err|]]; [done|].
    by destruct (removeAll _ _ _) as [l' [err|]]. }
  destruct (selectBidTxLoop_cases l m maxTxBytes selectedTxs (Select l)
              (scan_init ctx selectedTxs)) as [_ Hc].
  simpl in Hc. rewrite <- Hstore in Hc. fold seen in Hc.
  split_and!.
  - intros Hnone.
    destruct Hc as [(_&_&Hreal&_)|[(pre&w&post&c&bz&bzs&_&_&Hw&_&_&_&He)
                                  |(pre&w&post&err&_&_&_&_&Hreal&_)]]; try done.
    exfalso. apply (Hnone w).
    + rewrite He. apply elem_of_app. right. by left.
    + apply eligible_Won. eauto.
  - intros w Hin (c0 & bz0 & bzs0 & Hw0)%eligible_Won.
    destruct Hc as [(_&Hall&_&_&He)|[(pre&w'&post&c&bz&bzs&_&Hpre&Hw&_&Hreal&_&He)
                                    |(pre&w'&post&err&_&Hpre&Hw&_&_&He)]];
      rewrite He in Hin.
    + eapply Forall_forall in Hall; [|exact Hin]. destruct Hall; congruence.
    + apply elem_of_app in Hin as [Hin| ->%list_elem_of_singleton].
      { eapply Forall_forall in Hpre; [|exact Hin]. destruct Hpre; congruence. }
      apply selectBid_Won in Hw as (h & c1 & info & _ & _ & Hp & _ & Hinfo & Hb).
      apply prepareProposalVerifyTx_ok in Hp as (_ & -> & _).
      apply prepareBundle_ok in Hb as (refTxs & Hwrap & _ & Hrun).
      exists info, refTxs. split_and!; [done..|]. by rewrite Hreal, Hrun.
    + apply elem_of_app in Hin as [Hin| ->%list_elem_of_singleton].
      { eapply Forall_forall in Hpre; [|exact Hin]. destruct Hpre; congruence. }
      congruence.
  - intros tx rest st [Ho|Ho]; simpl; rewrite Ho.
    + by exists st.
    + by exists (mark tx st).
Qed.

(** *** What the call removes and what it keeps *)

Lemma nodup_keys_entry es (e1 e2 : string * Tx) :
  NoDup es.*1 -> e1 ∈ es -> e2 ∈ es -> e1.1 = e2.1 -> e1 = e2.
Proof.
  induction es as [|e es IH]; [by intros _ ?%not_elem_of_nil|].
  rewrite fmap_cons, NoDup_cons. intros [Hnin Hnd].
  intros [->|H1]%elem_of_cons [->|H2]%elem_of_cons Hk; [done| | |by apply IH].
  - exfalso. apply Hnin. rewrite Hk. by apply list_elem_of_fmap_2.
  - exfalso. apply Hnin. rewrite <- Hk. by apply list_elem_of_fmap_2.
Qed.

Section Purged.

Variables (l : @TOBLane Tx Store Meta) (txs : list Tx) (hs : list string).
Hypothesis Hinv : lane_inv sha256_hex l.
Hypothesis Hhs : Forall2 (λ tx h, hash_of l tx = inl h) txs hs.

Lemma purged_absent tx :
  tx ∈ txs ->
  Contains sha256_hex (purge l hs) tx = inl false ∧ (tx ∉ Select (purge l hs))
  ∧ (∀ h, hash_of l tx = inl h -> h ∉ pool_keys (index (purge l hs))).
Proof.
  intros Hin. destruct (Forall2_elem_l _ _ _ _ Hhs Hin) as (h & Hh & Hhash).
  assert (Hk : h ∉ pool_keys (index (purge l hs))).
  { rewrite purge_keys. intros [? _]%list_elem_of_filter. done. }
  split_and!.
  - apply Contains_false. exists h. split; [exact Hhash|].
    change (txIndex (purge l hs)) with (txIndex l ∖ list_to_set hs).
    rewrite elem_of_difference, elem_of_list_to_set. tauto.
  - intros Hsel.
    destruct (pool_entry_hash (purge l hs) tx (purge_inv l hs Hinv) Hsel)
      as (h' & Hh' & Hk').
    change (hash_of (purge l hs) tx) with (hash_of l tx) in Hh'. congruence.
  - intros h' Hh'. congruence.
Qed.

Lemma purged_kept tx :
  txs ⊆ Select l -> tx ∈ Select l -> tx ∉ txs ->
  tx ∈ Select (purge l hs) ∧ Contains sha256_hex (purge l hs) tx = inl true.
Proof.
  intros Hsub (e & -> & He)%list_elem_of_fmap Hnin.
  assert (Hhash : hash_of l e.2 = inl e.1).
  { by eapply Forall_forall in He; [|exact (inv_hashes _ _ Hinv)]. }
  assert (Hk : e.1 ∉ hs).
  { intros Hk. destruct (Forall2_elem_r _ _ _ _ Hhs Hk) as (tx' & Hin' & Hh').
    pose proof (Hsub _ Hin') as (e' & -> & He')%list_elem_of_fmap.
    assert (hash_of l e'.2 = inl e'.1).
    { by eapply Forall_forall in He'; [|exact (inv_hashes _ _ Hinv)]. }
    assert (e = e'); [|by subst].
    eapply nodup_keys_entry; [exact (inv_nodup _ _ Hinv)|done..|congruence]. }
  split.
  - apply list_elem_of_fmap. exists e. split; [done|].
    simpl. by apply list_elem_of_filter.
  - apply Contains_true. exists e.1. split; [exact Hhash|].
    change (txIndex (purge l hs)) with (txIndex l ∖ list_to_set hs).
    rewrite elem_of_difference, elem_of_list_to_set. split; [|done].
    rewrite (inv_index _ _ Hinv), elem_of_list_to_set.
    by apply list_elem_of_fmap_2.
Qed.

End Purged.

Lemma marked_subseteq l ctx m maxTxBytes selectedTxs :
  marked sha256_hex l ctx m maxTxBytes selectedTxs (Select l) ⊆ Select l.
Proof. intros tx [Hin _]%marked_elem. by eapply examined_sublist. Qed.

(** C5. After a successful [PrepareLane] on a reachable lane, every
    transaction that the scan marked is gone: [Contains] answers false, the
    pool does not iterate it and does not hold its hash.  A candidate that the
    scan reaches and that passes the hook but encodes to more than
    [maxTxBytes] is among them. *)
Theorem PrepareLane_removes_marked l ctx m maxTxBytes selectedTxs ctx' l' out :
  reachable sha256_hex l ->
  PrepareLane sha256_hex l ctx m maxTxBytes selectedTxs = (ctx', l', inl out) ->
  (∀ tx, tx ∈ marked sha256_hex l ctx m maxTxBytes selectedTxs (Select l) ->
     Contains sha256_hex l' tx = inl false ∧ (tx ∉ Select l')
     ∧ (∀ h, hash_of l tx = inl h -> (h ∉ pool_keys (index l')) ∧ (h ∉ txIndex l')))
  ∧ (∀ tx h cacheCtx bidTxBz,
       tx ∈ examined sha256_hex l ctx m maxTxBytes selectedTxs (Select l) ->
       hash_of l tx = inl h -> selectedTxs !! h = None ->
       prepareProposalVerifyTx l ctx m tx = (cacheCtx, inl bidTxBz) ->
       maxTxBytes < len64 bidTxBz ->
       Contains sha256_hex l' tx = inl false ∧ tx ∉ Select l')
  ∧ (∀ tx, tx ∈ examined sha256_hex l ctx m maxTxBytes selectedTxs (Select l) ->
       selectBid sha256_hex l ctx m maxTxBytes selectedTxs tx = Marked ->
       Contains sha256_hex l' tx = inl false ∧ tx ∉ Select l').
Proof.
  intros Hinv%reachable_inv Hcall.
  destruct (PrepareLane_cases l ctx m maxTxBytes selectedTxs (inv_identity _ _ Hinv))
    as [(c & o & _ & [(hs & Hhs & _ & He)|(tx & what & l'' & _ & _ & He)])
       |(pre & w & post & err & _ & _ & _ & _ & He)];
    rewrite He in Hcall; try discriminate.
  injection Hcall as _ <- _.
  assert (Hgone : ∀ tx,
    tx ∈ marked sha256_hex l ctx m maxTxBytes selectedTxs (Select l) ->
    Contains sha256_hex (purge l hs) tx = inl false ∧ (tx ∉ Select (purge l hs))
    ∧ (∀ h, hash_of l tx = inl h ->
         (h ∉ pool_keys (index (purge l hs))) ∧ (h ∉ txIndex (purge l hs)))).
  { intros tx Hin.
    destruct (purged_absent l _ hs Hinv Hhs tx Hin) as (Hc & Hs & Hk).
    split_and!; [done..|]. intros h Hh. split; [by apply Hk|].
    apply Contains_false in Hc as (h' & Hh' & Hni).
    change (hash_of (purge l hs) tx) with (hash_of l tx) in Hh'. congruence. }
  split_and!.
  - exact Hgone.
  - intros tx h c1 bz Hseen Hh Hsel Hp Hlt.
    destruct (Hgone tx) as (? & ? & _); [|done].
    apply examined_marked; [done|]. by eapply selectBid_oversized.
  - intros tx Hseen Hm.
    destruct (Hgone tx) as (? & ? & _); [|done]. by apply examined_marked.
Qed.

(** C10. After a successful [PrepareLane] on a reachable lane, every
    transaction of the pool that the scan did not mark is still iterated by
    the pool and [Contains] answers true for it; that holds in particular for
    a candidate skipped as already selected and for the winning bid. *)
Theorem PrepareLane_keeps_unmarked l ctx m maxTxBytes selectedTxs ctx' l' out :
  reachable sha256_hex l ->
  PrepareLane sha256_hex l ctx m maxTxBytes selectedTxs = (ctx', l', inl out) ->
  (∀ tx, tx ∈ Select l ->
     tx ∉ marked sha256_hex l ctx m maxTxBytes selectedTxs (Select l) ->
     tx ∈ Select l' ∧ Contains sha256_hex l' tx = inl true)
  ∧ (∀ tx, tx ∈ Select l ->
       selectBid sha256_hex l ctx m maxTxBytes selectedTxs tx = Skipped ->
       tx ∈ Select l' ∧ Contains sha256_hex l' tx = inl true)
  ∧ (∀ w, w ∈ Select l ->
       eligible sha256_hex l ctx m maxTxBytes selectedTxs w ->
       w ∈ Select l' ∧ Contains sha256_hex l' w = inl true).
Proof.
  intros Hinv%reachable_inv Hcall.
  destruct (PrepareLane_cases l ctx m maxTxBytes selectedTxs (inv_identity _ _ Hinv))
    as [(c & o & _ & [(hs & Hhs & _ & He)|(tx & what & l'' & _ & _ & He)])
       |(pre & w & post & err & _ & _ & _ & _ & He)];
    rewrite He in Hcall; try discriminate.
  injection Hcall as _ <- _.
  assert (Hkept : ∀ tx, tx ∈ Select l ->
    tx ∉ marked sha256_hex l ctx m maxTxBytes selectedTxs (Select l) ->
    tx ∈ Select (purge l hs) ∧ Contains sha256_hex (purge l hs) tx = inl true).
  { intros tx Hin Hnm.
    by apply (purged_kept l _ hs Hinv Hhs tx (marked_subseteq l ctx m maxTxBytes selectedTxs)). }
  split_and!.
  - exact Hkept.
  - intros tx Hin Hs. apply Hkept; [done|].
    intros [_ Hm]%marked_elem. congruence.
  - intros w Hin (c0 & bz & bzs & Hw)%eligible_Won. apply Hkept; [done|].
    intros [_ Hm]%marked_elem. congruence.
Qed.

(** *** The selection *)

Lemma Select_sorted l :
  lane_inv sha256_hex l ->
  StronglySorted (λ a b, TxPriority (index l) b <= TxPriority (index l) a) (Select l).
Proof.
  intros Hinv. unfold Select, pool_Select.
  eapply StronglySorted_fmap; [|exact (inv_sorted _ _ Hinv)]. done.
Qed.

Lemma total_len_nonneg (txs : list bytes) : 0 <= total_len txs.
Proof.
  induction txs as [|tx txs IH]; [done|].
  change (total_len (tx :: txs)) with (len64 tx + total_len txs).
  pose proof (Nat2Z.is_nonneg (length tx)). unfold len64.
  apply Z.add_nonneg_nonneg; assumption.
Qed.

Lemma selectedBytes_nonneg (selectedTxs : gmap string bytes) :
  0 <= selectedBytes selectedTxs.
Proof.
  unfold selectedBytes.
  induction (map_to_list selectedTxs) as [|kv kvs IH]; [done|].
  rewrite foldr_cons. unfold len64.
  apply Z.add_nonneg_nonneg; [apply Nat2Z.is_nonneg|exact IH].
Qed.

(** What passes full validation and fits the budget also passes the checks of
    the scan. *)
Lemma qualifies_eligible l ctx m maxTxBytes selectedTxs tx :
  qualifies sha256_hex l ctx m maxTxBytes selectedTxs tx ->
  eligible sha256_hex l ctx m maxTxBytes selectedTxs tx.
Proof.
  intros (h & c1 & bz & info & c2 & bzs & Hh & Hsel & Hp & Hinfo & Hb & _ & Hfit).
  exists h, c1, bz, info, c2, bzs. split_and!; try done.
  pose proof (selectedBytes_nonneg selectedTxs).
  pose proof (total_len_nonneg bzs) as Hb0.
  change (total_len (bz :: bzs)) with (len64 bz + total_len bzs) in Hfit.
  generalize dependent (len64 bz). generalize dependent (total_len bzs).
  generalize dependent (selectedBytes selectedTxs). intros; lia.
Qed.

(** C1, amended by the guard on already selected transactions.  A successful
    [PrepareLane] on a reachable lane returns either nothing, and then no
    transaction of the pool is at once not yet selected, fully valid and
    within the budget; or the encoding of one bid of the pool, not yet
    selected and accepted by the hook with its bundle, followed by the
    encodings of its wrapped bundle in bundle order, and then no transaction
    of the pool that is not yet selected, fully valid and within the budget
    has a higher pool priority, nor, where the pool priority is the bid
    amount, a higher bid.  Fully valid and within the budget is [qualifies]:
    the bundle holds no bid, and bid and bundle together fit into what the
    already selected transactions leave of [maxTxBytes].  Whether the winner
    itself stays within that budget and is free of bundled bids is not
    stated. *)
Theorem PrepareLane_selects_highest_bid l ctx m maxTxBytes selectedTxs ctx' l' out :
  reachable sha256_hex l ->
  PrepareLane sha256_hex l ctx m maxTxBytes selectedTxs = (ctx', l', inl out) ->
  (out = [] ∧ ∀ tx, tx ∈ Select l ->
                ¬ qualifies sha256_hex l ctx m maxTxBytes selectedTxs tx)
  ∨ (∃ w bidInfo bidTxBz refTxs sdkTxBytes,
       w ∈ Select l
       ∧ eligible sha256_hex l ctx m maxTxBytes selectedTxs w
       ∧ GetAuctionBidInfo (af l) w = (Some bidInfo, None)
       ∧ txEncoder l w = inl bidTxBz
       ∧ Forall2 (λ raw refTx, WrapBundleTransaction (af l) raw = inl refTx)
           (Transactions bidInfo) refTxs
       ∧ Forall2 (λ refTx txBz, txEncoder l refTx = inl txBz) refTxs sdkTxBytes
       ∧ out = bidTxBz :: sdkTxBytes
       ∧ (∀ t, t ∈ Select l ->
            qualifies sha256_hex l ctx m maxTxBytes selectedTxs t ->
            TxPriority (index l) t <= TxPriority (index l) w)
       ∧ ((∀ tx bidInfo', GetAuctionBidInfo (af l) tx = (Some bidInfo', None) ->
             TxPriority (index l) tx = Bid bidInfo') ->
          ∀ t bidInfo', t ∈ Select l ->
            qualifies sha256_hex l ctx m maxTxBytes selectedTxs t ->
            GetAuctionBidInfo (af l) t = (Some bidInfo', None) ->
            Bid bidInfo' <= Bid bidInfo)).
Proof.
  intros Hinv%reachable_inv Hcall.
  destruct (PrepareLane_cases l ctx m maxTxBytes selectedTxs (inv_identity _ _ Hinv))
    as [(c & o & Hscan & [(hs & _ & _ & He)|(tx & what & l'' & _ & _ & He)])
       |(pre & w & post & err & _ & _ & _ & _ & He)];
    rewrite He in Hcall; try discriminate.
  injection Hcall as _ _ <-.
  destruct Hscan as [(Hall & _ & -> & _)
                    |(pre & w & post & bz & bzs & Hit & Hpre & Hw & -> & _)].
  - left. split; [done|]. intros tx Hin Hq%qualifies_eligible. revert Hq.
    apply passed_over_not_eligible. by eapply Forall_forall in Hall.
  - right.
    pose proof Hw as (h & c1 & info & _ & _ & Hp & _ & Hinfo & Hb)%selectBid_Won.
    apply prepareProposalVerifyTx_ok in Hp as (Henc & _ & _).
    apply prepareBundle_ok in Hb as (refTxs & Hwrap & Hencs & _).
    assert (Hmax : ∀ t, t ∈ Select l ->
              qualifies sha256_hex l ctx m maxTxBytes selectedTxs t ->
              TxPriority (index l) t <= TxPriority (index l) w).
    { intros t Hin Hel%qualifies_eligible.
      pose proof (Select_sorted l Hinv) as Hs. rewrite Hit in Hs.
      rewrite Hit in Hin. apply elem_of_app in Hin as [Hin|Hin].
      { exfalso. eapply passed_over_not_eligible; [|exact Hel].
        by eapply Forall_forall in Hpre. }
      apply StronglySorted_app_1_r, StronglySorted_cons in Hs as [Hs _].
      apply elem_of_cons in Hin as [->|Hin]; [lia|].
      by eapply Forall_forall in Hs. }
    exists w, info, bz, refTxs, bzs. split_and!; try done.
    + rewrite Hit. apply elem_of_app. right. by left.
    + apply eligible_Won. eauto.
    + intros Hprio t info' Hin Hq Hinfo'.
      rewrite <- (Hprio _ _ Hinfo), <- (Hprio _ _ Hinfo'). by apply Hmax.
Qed.

(** *** Nested bids and the verification of a proposal *)

Lemma VerifyTx_bundle_nested_bid l (txs : list bytes) : ∀ ctx m,
  (∃ raw bundledTx nested,
     raw ∈ txs ∧ WrapBundleTransaction (af l) raw = inl bundledTx
     ∧ (GetAuctionBidInfo (af l) bundledTx).1 = Some nested) ->
  ∃ ctx' err, VerifyTx_bundle l ctx m txs = (ctx', Some err).
Proof.
  induction txs as [|tx txs IH]; intros ctx m (raw & btx & nested & Hin & Hw & Hbid).
  { by apply not_elem_of_nil in Hin. }
  simpl. destruct (WrapBundleTransaction (af l) tx) as [bundledTx|err] eqn:Hwrap; [|eauto].
  destruct (GetAuctionBidInfo (af l) bundledTx).1 as [info|] eqn:Hinfo; [eauto|].
  destruct (verifyTx l ctx m bundledTx) as [[c m'] [err|]]; [eauto|].
  apply IH. apply elem_of_cons in Hin as [->|Hin]; [congruence|].
  exists raw, btx, nested. eauto.
Qed.

(** [VerifyTx] returns an error for every bid whose bundle holds a payload
    that wraps to a transaction with bid info. *)
Lemma VerifyTx_rejects_nested_bid l ctx m bidTx bidInfo operr raw bundledTx nested :
  GetAuctionBidInfo (af l) bidTx = (Some bidInfo, operr) ->
  raw ∈ Transactions bidInfo ->
  WrapBundleTransaction (af l) raw = inl bundledTx ->
  (GetAuctionBidInfo (af l) bundledTx).1 = Some nested ->
  ∃ ctx' err, VerifyTx l ctx m bidTx = Returns (ctx', Some err).
Proof.
  intros Hinfo Hin Hw Hn. unfold VerifyTx. rewrite Hinfo.
  destruct operr as [err|]; [eauto|].
  destruct (verifyTx l ctx m bidTx) as [[c m'] [err|]]; [eauto|].
  destruct (VerifyTx_bundle_nested_bid l (Transactions bidInfo) c m') as (c' & err & ->);
    eauto 10.
Qed.

(** [ProcessLane] of the lane is not implemented: whatever the context and
    the proposed byte sequence, it panics; it decodes, verifies, consumes and
    delegates nothing. *)
Theorem ProcessLane_not_implemented l ctx m (txs : list bytes) :
  ProcessLane l ctx m txs = Panics "not implemented".
Proof. reflexivity. Qed.

(** *** The order of the removal loop *)

Lemma purge_perm l hs hs' : hs ≡ₚ hs' -> purge l hs = purge l hs'.
Proof.
  intros Hp. unfold purge. f_equal.
  - f_equal. apply list_filter_iff. intros e. by rewrite Hp.
  - f_equal. by apply list_to_set_perm_L.
Qed.

Lemma hashes_omap l txs hs :
  Forall2 (λ tx h, hash_of l tx = inl h) txs hs ->
  hs = omap (λ tx, match hash_of l tx with inl h => Some h | inr _ => None end) txs.
Proof.
  induction 1 as [|tx h txs hs Hh _ IH]; [done|].
  csimpl. rewrite Hh. csimpl. by f_equal.
Qed.

(** Whatever order the map iteration takes, the removal loop fails for the
    same sets of marks, and when it does not fail it leaves the same lane. *)
Lemma removeAll_any_order l txs txs' :
  identity (index l) = GetTxHashStr sha256_hex (txEncoder l) ->
  Forall (λ tx, ∃ h, hash_of l tx = inl h) txs ->
  txs ≡ₚ txs' ->
  ((removeAll sha256_hex l txs).2 = None <-> (removeAll sha256_hex l txs').2 = None)
  ∧ ((removeAll sha256_hex l txs).2 = None ->
       removeAll sha256_hex l txs' = removeAll sha256_hex l txs).
Proof.
  intros Hid Hall Hp.
  assert (Hall' : Forall (λ tx, ∃ h, hash_of l tx = inl h) txs') by by rewrite <- Hp.
  destruct (removeAll_cases txs l Hid Hall)
    as [(hs & Hhs & Hnf & He)|(tx & what & l1 & Hin & Hf & He)];
  destruct (removeAll_cases txs' l Hid Hall')
    as [(hs' & Hhs' & Hnf' & He')|(tx' & what' & l1' & Hin' & Hf' & He')];
    rewrite He, He'; simpl.
  - split; [done|]. intros _. f_equal. apply purge_perm.
    pose proof (hashes_omap _ _ _ Hhs) as Ho. pose proof (hashes_omap _ _ _ Hhs') as Ho'.
    subst hs hs'. by apply omap_Permutation.
  - exfalso. rewrite <- Hp in Hin'.
    eapply Forall_forall in Hnf; [|exact Hin']. congruence.
  - exfalso. rewrite Hp in Hin.
    eapply Forall_forall in Hnf'; [|exact Hin]. congruence.
  - split; [done|]. done.
Qed.

End Properties.


(** ** Further properties of the lane *)

Section Further.

Context {Tx Store Meta : Type} (sha256_hex : bytes -> string).

Implicit Types (l : @TOBLane Tx Store Meta) (p : @PriorityMempool Tx)
  (tx : Tx) (es : list (string * Tx)).

Local Abbreviation hash_of := (getTxHashStr sha256_hex).
Local Abbreviation wired l :=
  (identity (index l) = GetTxHashStr sha256_hex (txEncoder l)).

(** *** Membership is by content *)

(** X1. The lane identifies a transaction by its encoding alone: two
    transactions with the same encoding get the same answer from [Contains],
    after a successful [Insert] of one [Contains] answers true for the other,
    and after a successful [Remove] of one it answers false for the other. *)
Theorem membership_by_encoding l t1 t2 :
  txEncoder l t1 = txEncoder l t2 ->
  Contains sha256_hex l t1 = Contains sha256_hex l t2
  ∧ (∀ l', Insert sha256_hex l t1 = (l', None) -> Contains sha256_hex l' t2 = inl true)
  ∧ (∀ l', Remove sha256_hex l t1 = (l', None) -> Contains sha256_hex l' t2 = inl false).
Proof.
  intros Henc.
  assert (Hh : hash_of l t1 = hash_of l t2).
  { unfold getTxHashStr, GetTxHashStr. by rewrite Henc. }
  split_and!.
  - unfold Contains. by rewrite Hh.
  - intros l'. unfold Insert. rewrite Hh.
    destruct (hash_of l t2) as [h|err] eqn:Hh2; [|done].
    destruct (pool_Insert (index l) t1) as [p [err|]]; [done|].
    intros [= <-]. apply Contains_true. exists h. split; [exact Hh2|].
    simpl. apply elem_of_union_l, elem_of_singleton. reflexivity.
  - intros l'. unfold Remove. rewrite Hh.
    destruct (hash_of l t2) as [h|err] eqn:Hh2; [|done].
    assert (Hgone : h ∉ txIndex l ∖ {[h]}).
    { rewrite elem_of_difference, elem_of_singleton. tauto. }
    destruct (pool_Remove (index l) t1) as [p [err|]].
    + destruct (errors_Is err ErrTxNotFound); [|done].
      intros [= <-]. apply Contains_false. eauto.
    + intros [= <-]. apply Contains_false. eauto.
Qed.

(** *** Remove *)

Lemma purge_twice l h : purge (purge l [h]) [h] = purge l [h].
Proof.
  rewrite purge_purge. unfold purge. f_equal.
  - f_equal. apply list_filter_iff. intros e.
    rewrite not_elem_of_app. tauto.
  - apply set_eq. intros x.
    rewrite !elem_of_difference, !elem_of_list_to_set, elem_of_app. tauto.
Qed.

(** X2. [Remove] is idempotent on a lane whose pool is keyed by the lane's
    hash: after a [Remove] that returned no error, removing the same
    transaction again returns no error and leaves the lane as it is. *)
Theorem Remove_idempotent l tx l' :
  wired l ->
  Remove sha256_hex l tx = (l', None) ->
  Remove sha256_hex l' tx = (l', None).
Proof.
  intros Hid Hrm.
  destruct (Remove_cases sha256_hex l tx Hid) as [(err & He)|(h & Hh & Hf & He)];
    rewrite He in Hrm; [done|].
  injection Hrm as <-.
  rewrite (Remove_ok sha256_hex (purge l [h]) tx h Hid Hh Hf).
  by rewrite purge_twice.
Qed.

Lemma purge_absent l h :
  h ∉ pool_keys (index l) -> h ∉ txIndex l -> purge l [h] = l.
Proof.
  intros Hk Hi. unfold purge.
  assert (Hflt : filter (λ e, e.1 ∉ [h]) (entries (index l)) = entries (index l)).
  { rewrite <- (filter_keys_absent h (entries (index l)) Hk) at 2.
    apply list_filter_iff. intros e. by rewrite list_elem_of_singleton. }
  assert (Hset : txIndex l ∖ list_to_set [h] = txIndex l).
  { apply set_eq. intros x.
    rewrite elem_of_difference, elem_of_list_to_set, list_elem_of_singleton.
    split; [tauto|]. intros Hx. split; [done|]. by intros ->. }
  by rewrite Hflt, Hset, pool_with_id, lane_with_id.
Qed.

(** X3. Absence is not an error: in a reachable lane, removing a transaction
    that the lane does not contain returns no error, unless the pool refuses
    the removal for its own reasons, and leaves pool and membership index
    exactly as they were. *)
Theorem Remove_absent_is_noop l tx :
  reachable sha256_hex l ->
  Contains sha256_hex l tx = inl false ->
  removeFault (index l) tx = None ->
  Remove sha256_hex l tx = (l, None).
Proof.
  intros Hinv%reachable_inv (h & Hh & Hni)%Contains_false Hf.
  rewrite (Remove_ok sha256_hex l tx h (inv_identity _ _ Hinv) Hh Hf).
  f_equal. apply purge_absent; [|done].
  by rewrite (inv_index _ _ Hinv), elem_of_list_to_set in Hni.
Qed.

(** X4. A [Remove] that returns an error has changed nothing, and the error
    is either the wrapped failure to hash the transaction or the wrapped
    refusal of the pool; the not-found answer of the pool never reaches the
    caller. *)
Theorem Remove_error_unchanged l tx l' err :
  wired l ->
  Remove sha256_hex l tx = (l', Some err) ->
  l' = l
  ∧ ((∃ err', hash_of l tx = inr err'
              ∧ err = ErrWrap "failed to get tx hash string" err')
     ∨ (∃ what, removeFault (index l) tx = Some what
                ∧ err = ErrWrap "failed to remove invalid transaction from the mempool"
                          (ErrExternal what)
                ∧ errors_Is err ErrTxNotFound = false)).
Proof.
  intros Hid Hrm.
  destruct (hash_of l tx) as [h|err'] eqn:Hh.
  - destruct (removeFault (index l) tx) as [what|] eqn:Hf.
    + rewrite (Remove_fault sha256_hex l tx h what Hh Hf) in Hrm.
      injection Hrm as <- <-. split; [done|]. right. by exists what.
    + by rewrite (Remove_ok sha256_hex l tx h Hid Hh Hf) in Hrm.
  - rewrite (Remove_hash_error sha256_hex l tx err' Hh) in Hrm.
    injection Hrm as <- <-. split; [done|]. left. by exists err'.
Qed.

Lemma filter_key_length (k : string) es :
  NoDup es.*1 -> k ∈ es.*1 ->
  S (length (filter (λ e, e.1 ≠ k) es)) = length es.
Proof.
  induction es as [|e es IH]; [by intros _ ?%not_elem_of_nil|].
  rewrite fmap_cons, NoDup_cons. intros [Hnin Hnd] Hin.
  rewrite filter_cons. destruct (decide (e.1 ≠ k)) as [Hne|Heq].
  - apply elem_of_cons in Hin as [->|Hin]; [done|]. simpl. by rewrite IH.
  - apply dec_stable in Heq. subst k.
    by rewrite (filter_keys_absent _ _ Hnin).
Qed.

(** X5. In a reachable lane a successful [Remove] of a contained transaction
    lowers [CountTx] by exactly one, takes nothing else out of the pool and
    keeps the order of what remains: every other transaction of the pool with
    a different hash is still iterated, and the new iteration is a
    subsequence of the old one. *)
Theorem Remove_takes_one l tx l' :
  reachable sha256_hex l ->
  Contains sha256_hex l tx = inl true ->
  Remove sha256_hex l tx = (l', None) ->
  S (CountTx l') = CountTx l
  ∧ Select l' `sublist_of` Select l
  ∧ (∀ t, t ∈ Select l -> hash_of l t ≠ hash_of l tx ->
          t ∈ Select l' ∧ Contains sha256_hex l' t = inl true).
Proof.
  intros Hinv%reachable_inv (h & Hh & Hin)%Contains_true Hrm.
  pose proof (inv_identity _ _ Hinv) as Hid.
  destruct (Remove_cases sha256_hex l tx Hid) as [(err & He)|(h' & Hh' & Hf & He)];
    rewrite He in Hrm; [done|].
  injection Hrm as <-. assert (h' = h) as -> by congruence.
  rewrite (inv_index _ _ Hinv), elem_of_list_to_set in Hin.
  assert (Hflt : ∀ es, filter (λ e, e.1 ∉ [h]) es = filter (λ e, e.1 ≠ h) es).
  { intros es. apply list_filter_iff. intros e. by rewrite list_elem_of_singleton. }
  split_and!.
  - unfold CountTx, pool_CountTx. simpl. rewrite Hflt.
    by apply filter_key_length; [apply (inv_nodup _ _ Hinv)|].
  - unfold Select, pool_Select. simpl. apply fmap_sublist, sublist_filter.
  - intros t (e & -> & He')%list_elem_of_fmap Hne.
    assert (Hhe : hash_of l e.2 = inl e.1).
    { by eapply Forall_forall in He'; [|exact (inv_hashes _ _ Hinv)]. }
    assert (Hk : e.1 ≠ h) by (intros <-; congruence).
    split.
    + apply list_elem_of_fmap. exists e. split; [done|]. simpl.
      apply list_elem_of_filter. split; [|done]. by rewrite list_elem_of_singleton.
    + apply Contains_true. exists e.1. split; [exact Hhe|].
      change (txIndex (purge l [h])) with (txIndex l ∖ list_to_set [h]).
      rewrite elem_of_difference, elem_of_list_to_set, list_elem_of_singleton.
      split; [|done].
      rewrite (inv_index _ _ Hinv), elem_of_list_to_set.
      by apply list_elem_of_fmap_2.
Qed.

(** *** Insert *)

Lemma filter_inserted_key (prio : Tx -> Z) (h : string) tx es :
  h ∉ es.*1 ->
  filter (λ e, e.1 ∉ [h]) (insert_by_priority prio (h, tx) es) = es.
Proof.
  assert (Hdrop : ∀ es', h ∉ es'.*1 ->
            filter (λ e : string * Tx, e.1 ∉ [h]) ((h, tx) :: es') = es').
  { intros es' Hk. rewrite filter_cons. simpl.
    destruct (decide (h ∉ [h])) as [Hn|_].
    - exfalso. apply Hn. by left.
    - rewrite <- (filter_keys_absent h es' Hk) at 2.
      apply list_filter_iff. intros e. by rewrite list_elem_of_singleton. }
  induction es as [|e es IH]; intros Hk; simpl.
  - by apply Hdrop.
  - destruct (prio e.2 <? prio tx); [by apply Hdrop|].
    rewrite fmap_cons, not_elem_of_cons in Hk. destruct Hk as [Hne Hk].
    rewrite filter_cons. destruct (decide (e.1 ∉ [h])) as [_|Hn].
    + by rewrite IH.
    + exfalso. apply Hn. rewrite list_elem_of_singleton. congruence.
Qed.

(** X6. Round trip: in a reachable lane, a successful [Insert] followed by a
    [Remove] of the same transaction gives back the lane as it was before,
    with the same pool order and the same membership index, unless the pool
    refuses the removal for its own reasons. *)
Theorem Insert_then_Remove l tx l1 :
  reachable sha256_hex l ->
  Insert sha256_hex l tx = (l1, None) ->
  removeFault (index l) tx = None ->
  Remove sha256_hex l1 tx = (l, None).
Proof.
  intros Hinv%reachable_inv Hins Hf.
  pose proof (inv_identity _ _ Hinv) as Hid.
  destruct (Insert_cases sha256_hex l tx Hid)
    as [(err & _ & He)|[(h & err & _ & He)|(h & Hh & Hnin & He)]];
    rewrite He in Hins; try discriminate.
  injection Hins as <-.
  match goal with |- Remove _ ?l1 _ = _ =>
    rewrite (Remove_ok sha256_hex l1 tx h Hid Hh Hf) end.
  f_equal. unfold purge; simpl. rewrite (filter_inserted_key _ _ _ _ Hnin).
  assert (Hset : ({[h]} ∪ txIndex l) ∖ ({[h]} ∪ ∅) = txIndex l).
  { apply set_eq. intros x.
    rewrite elem_of_difference, !elem_of_union, elem_of_singleton, elem_of_empty.
    split; [tauto|]. intros Hx. split; [by right|]. intros [->|[]].
    by rewrite (inv_index _ _ Hinv), elem_of_list_to_set in Hx. }
  rewrite Hset. by destruct l as [[]].
Qed.

(** X7. An [Insert] that returns an error has changed neither the pool nor
    the membership index, whatever the lane and the reason. *)
Theorem Insert_error_unchanged l tx l' err :
  Insert sha256_hex l tx = (l', Some err) -> l' = l.
Proof.
  unfold Insert, pool_Insert.
  destruct (hash_of l tx) as [h|err']; [|by intros [= <-]].
  destruct (identity (index l) tx) as [k|err'].
  - destruct (bool_decide (k ∈ pool_keys (index l)));
      [intros [= <- _]; apply lane_with_id|].
    destruct (MaxTx (index l) <=? Z.of_nat (length (entries (index l))));
      [intros [= <- _]; apply lane_with_id|done].
  - intros [= <- _]. apply lane_with_id.
Qed.

(** X8. In a reachable lane a successful [Insert] adds exactly the inserted
    transaction: it was not contained before, [CountTx] grows by one, the new
    iteration holds the inserted transaction and the old ones and nothing
    else, and the old ones keep their relative order. *)
Theorem Insert_adds_one l tx l' :
  reachable sha256_hex l ->
  Insert sha256_hex l tx = (l', None) ->
  Contains sha256_hex l tx = inl false
  ∧ CountTx l' = S (CountTx l)
  ∧ Select l' ≡ₚ tx :: Select l
  ∧ Select l `sublist_of` Select l'.
Proof.
  intros Hinv%reachable_inv Hins.
  pose proof (inv_identity _ _ Hinv) as Hid.
  destruct (Insert_cases sha256_hex l tx Hid)
    as [(err & _ & He)|[(h & err & _ & He)|(h & Hh & Hnin & He)]];
    rewrite He in Hins; try discriminate.
  injection Hins as <-.
  assert (Hsub : ∀ prio e es, es `sublist_of` insert_by_priority prio e es).
  { intros prio e es. induction es as [|e' es IH]; simpl.
    - by apply sublist_nil_l.
    - destruct (prio e'.2 <? prio e.2); [by apply sublist_cons|by apply sublist_skip]. }
  split_and!.
  - apply Contains_false. exists h. split; [done|].
    by rewrite (inv_index _ _ Hinv), elem_of_list_to_set.
  - unfold CountTx, pool_CountTx. simpl.
    by rewrite (Permutation_length (insert_by_priority_perm _ _ _)).
  - unfold Select, pool_Select. simpl. by rewrite insert_by_priority_perm.
  - unfold Select, pool_Select. simpl. apply fmap_sublist, Hsub.
Qed.

(** *** VerifyTx *)

Lemma VerifyTx_bundle_accepts l (raws : list bytes) : ∀ ctx m ctx',
  VerifyTx_bundle l ctx m raws = (ctx', None) <->
  ∃ refTxs m',
    Forall2 (λ raw refTx, WrapBundleTransaction (af l) raw = inl refTx) raws refTxs
    ∧ Forall (λ refTx, (GetAuctionBidInfo (af l) refTx).1 = None) refTxs
    ∧ verifyAll l ctx m refTxs = (ctx', m', None).
Proof.
  induction raws as [|raw raws IH]; intros ctx m ctx'; simpl.
  - split.
    + intros [= <-]. exists [], m. by repeat constructor.
    + intros (refTxs & m' & Hw & _ & Hv). inv Hw. simpl in Hv. congruence.
  - split.
    + destruct (WrapBundleTransaction (af l) raw) as [refTx|err] eqn:Hw; [|done].
      destruct (GetAuctionBidInfo (af l) refTx).1 eqn:Hb; [done|].
      destruct (verifyTx l ctx m refTx) as [[c1 m1] [err|]] eqn:Hv; [done|].
      intros (refTxs & m' & Hws & Hbs & Hvs)%IH.
      exists (refTx :: refTxs), m'. split_and!; [by constructor..|].
      simpl. by rewrite Hv.
    + intros (refTxs & m' & Hws & Hbs & Hvs). inv Hws. inv Hbs.
      simpl in Hvs.
      match goal with H : WrapBundleTransaction _ _ = _ |- _ => rewrite H end.
      match goal with H : (GetAuctionBidInfo _ _).1 = None |- _ => rewrite H end.
      destruct (verifyTx l ctx m _) as [[c1 m1] [err|]]; [done|].
      apply IH. eauto.
Qed.

(** X9. [VerifyTx] accepts a transaction exactly when the factory gives bid
    info without an error, every payload of the bundle wraps to a transaction
    without bid info, and the hook accepts the bid and then every wrapped
    transaction in bundle order, each on the store and context value the one
    before left behind.  The store it returns is the caller's store with all
    these writes: nothing is branched. *)
Theorem VerifyTx_accepts_iff l ctx m bidTx ctx' :
  VerifyTx l ctx m bidTx = Returns (ctx', None) <->
  ∃ bidInfo refTxs m',
    GetAuctionBidInfo (af l) bidTx = (Some bidInfo, None)
    ∧ Forall2 (λ raw refTx, WrapBundleTransaction (af l) raw = inl refTx)
        (Transactions bidInfo) refTxs
    ∧ Forall (λ refTx, (GetAuctionBidInfo (af l) refTx).1 = None) refTxs
    ∧ verifyAll l ctx m (bidTx :: refTxs) = (ctx', m', None).
Proof.
  unfold VerifyTx. split.
  - destruct (GetAuctionBidInfo (af l) bidTx) as [[info|] [err|]]; try done.
    + destruct (verifyTx l ctx m bidTx) as [[c1 m1] [err|]] eqn:Hv; [done|].
      intros [= (refTxs & m' & Hws & Hbs & Hvs)%VerifyTx_bundle_accepts].
      exists info, refTxs, m'. split_and!; [done..|]. simpl. by rewrite Hv.
    + by destruct (verifyTx l ctx m bidTx) as [[c1 m1] [err|]].
  - intros (info & refTxs & m' & -> & Hws & Hbs & Hvs). simpl in Hvs.
    destruct (verifyTx l ctx m bidTx) as [[c1 m1] [err|]]; [done|].
    f_equal. apply VerifyTx_bundle_accepts. eauto.
Qed.

(** X10. [VerifyTx] panics exactly when the factory returns neither bid info
    nor an error and the hook accepts the transaction; in particular it
    returns for every transaction that matches the lane, and for a
    transaction that does not match it either returns an error or panics,
    it never accepts. *)
Theorem VerifyTx_panics_iff l ctx m tx :
  ((∃ msg, VerifyTx l ctx m tx = Panics msg) <->
     GetAuctionBidInfo (af l) tx = (None, None) ∧ (verifyTx l ctx m tx).2 = None)
  ∧ (Match l tx = true -> ∃ ctx' oerr, VerifyTx l ctx m tx = Returns (ctx', oerr))
  ∧ (Match l tx = false -> ∀ ctx', VerifyTx l ctx m tx ≠ Returns (ctx', None)).
Proof.
  unfold VerifyTx, Match.
  destruct (GetAuctionBidInfo (af l) tx) as [[info|] [err|]];
    destruct (verifyTx l ctx m tx) as [[c1 m1] [err'|]]; simpl;
    split_and!; try done; try (split; [by intros [? ?]|by intros [? ?]]);
    try (intros _; eauto; fail).
  - intros _. destruct (VerifyTx_bundle l c1 m1 (Transactions info)); eauto.
  - split; [done|]. intros _. eauto.
Qed.

Lemma verifyTx_no_hook l ctx m tx :
  anteHandler l = None -> verifyTx l ctx m tx = (ctx, m, None).
Proof. unfold verifyTx. by intros ->. Qed.

Lemma runHook_no_hook l ctx m (txs : list Tx) :
  anteHandler l = None -> runHook l ctx m txs = ctx.
Proof.
  intros Hn. unfold runHook. induction txs as [|tx txs IH]; [done|].
  simpl. by rewrite verifyTx_no_hook.
Qed.

Lemma VerifyTx_bundle_no_hook l (raws : list bytes) ctx m :
  anteHandler l = None -> (VerifyTx_bundle l ctx m raws).1 = ctx.
Proof.
  intros Hn. induction raws as [|raw raws IH]; [done|]. simpl.
  destruct (WrapBundleTransaction (af l) raw) as [refTx|err]; [|done].
  destruct (GetAuctionBidInfo (af l) refTx).1; [done|].
  by rewrite verifyTx_no_hook.
Qed.

(** X11. Without an ante handler nothing is ever written: [PrepareLane]
    returns the caller's store as it got it, whatever it selects, and so does
    [VerifyTx], whatever it answers. *)
Theorem no_hook_no_writes l ctx m :
  anteHandler l = None ->
  (∀ maxTxBytes selectedTxs,
     (PrepareLane sha256_hex l ctx m maxTxBytes selectedTxs).1.1 = ctx)
  ∧ (∀ tx ctx' oerr, VerifyTx l ctx m tx = Returns (ctx', oerr) -> ctx' = ctx).
Proof.
  intros Hn. split.
  - intros maxTxBytes selectedTxs.
    assert (Hstore : (PrepareLane sha256_hex l ctx m maxTxBytes selectedTxs).1.1
                     = real (selectBidTxLoop sha256_hex l m maxTxBytes selectedTxs
                               (Select l) (scan_init ctx selectedTxs)).1).
    { unfold PrepareLane, Select.
      destruct (selectBidTxLoop _ _ _ _ _ _ _) as [st [err|]]; [done|].
      by destruct (removeAll _ _ _) as [l' [err|]]. }
    rewrite Hstore.
    destruct (selectBidTxLoop_cases sha256_hex l m maxTxBytes selectedTxs (Select l)
                (scan_init ctx selectedTxs)) as [_ Hc]. simpl in Hc.
    destruct Hc as [(_&_&Hreal&_)|[(pre&w&post&c&bz&bzs&_&_&Hw&_&Hreal&_)
                                  |(pre&w&post&err&_&_&_&_&Hreal&_)]]; try done.
    rewrite Hreal.
    apply selectBid_Won in Hw as (h & c1 & info & _ & _ & Hp & _ & _ & Hb).
    apply prepareProposalVerifyTx_ok in Hp as (_ & -> & _).
    apply prepareBundle_ok in Hb as (refTxs & _ & _ & ->).
    by rewrite runHook_no_hook, verifyTx_no_hook.
  - intros tx ctx' oerr. unfold VerifyTx.
    rewrite verifyTx_no_hook by done.
    destruct (GetAuctionBidInfo (af l) tx) as [[info|] [err|]]; try by intros [= <-].
    intros [= Hb]. rewrite <- (VerifyTx_bundle_no_hook l (Transactions info) ctx m Hn).
    by rewrite Hb.
Qed.

Lemma prepareBundle_VerifyTx_bundle l m (raws : list bytes) : ∀ ctx ctx' sdkTxBytes,
  (∀ s t, (verifyTx l s m t).1.2 = m) ->
  (∀ raw refTx, raw ∈ raws -> WrapBundleTransaction (af l) raw = inl refTx ->
                (GetAuctionBidInfo (af l) refTx).1 = None) ->
  prepareBundle l ctx m raws = Some (ctx', sdkTxBytes) ->
  VerifyTx_bundle l ctx m raws = (ctx', None).
Proof.
  induction raws as [|raw raws IH]; intros ctx ctx' out Hmeta Hnb; simpl.
  - by intros [= <- _].
  - destruct (WrapBundleTransaction (af l) raw) as [refTx|err] eqn:Hw; [|done].
    rewrite (Hnb raw refTx) by (done || by left).
    unfold prepareProposalVerifyTx.
    destruct (txEncoder l refTx) as [bz|err]; [|done].
    pose proof (Hmeta ctx refTx) as Hm.
    destruct (verifyTx l ctx m refTx) as [[c1 m1] [err|]]; [done|].
    simpl in Hm. subst m1.
    destruct (prepareBundle l c1 m raws) as [[c2 bzs]|] eqn:Hb; [|done].
    intros [= <- _]. eapply IH; [done| |exact Hb].
    intros raw' refTx' Hin. apply Hnb. by right.
Qed.

(** X12. What [PrepareLane] lets win, [VerifyTx] accepts, provided that the
    bundle holds no bid and the hook returns the context value it was given:
    [VerifyTx] on the store of the call then returns no error, and the store
    it leaves is the store that [PrepareLane] writes back for that winner. *)
Theorem winner_passes_VerifyTx l ctx m maxTxBytes selectedTxs w ctx' bidTxBz sdkTxBytes bidInfo :
  (∀ s t, (verifyTx l s m t).1.2 = m) ->
  GetAuctionBidInfo (af l) w = (Some bidInfo, None) ->
  (∀ raw refTx, raw ∈ Transactions bidInfo ->
     WrapBundleTransaction (af l) raw = inl refTx ->
     (GetAuctionBidInfo (af l) refTx).1 = None) ->
  selectBid sha256_hex l ctx m maxTxBytes selectedTxs w = Won ctx' bidTxBz sdkTxBytes ->
  VerifyTx l ctx m w = Returns (ctx', None).
Proof.
  intros Hmeta Hinfo Hnb (h & c1 & info & _ & _ & Hp & _ & Hinfo' & Hb)%selectBid_Won.
  assert (info = bidInfo) as -> by congruence.
  unfold VerifyTx. rewrite Hinfo.
  unfold prepareProposalVerifyTx in Hp.
  destruct (txEncoder l w) as [bz|err]; [|done].
  pose proof (Hmeta ctx w) as Hm.
  destruct (verifyTx l ctx m w) as [[c m1] [err|]]; [done|].
  simpl in Hm. subst m1. injection Hp as -> _.
  f_equal. by eapply prepareBundle_VerifyTx_bundle.
Qed.

(** *** PrepareLane beyond the selection *)

Lemma PrepareLane_scan l ctx m maxTxBytes selectedTxs :
  let r := selectBidTxLoop sha256_hex l m maxTxBytes selectedTxs (Select l)
             (scan_init ctx selectedTxs) in
  let call := PrepareLane sha256_hex l ctx m maxTxBytes selectedTxs in
  call.1.1 = real r.1
  ∧ call.1.2 = match r.2 with
               | Some _ => l
               | None => (removeAll sha256_hex l (txsToRemove r.1)).1
               end
  ∧ (∀ out, call.2 = inl out -> r.2 = None ∧ out = tmpSelectedTxs r.1).
Proof.
  unfold PrepareLane, Select.
  destruct (selectBidTxLoop _ _ _ _ _ _ _) as [st [err|]]; simpl; [done|].
  destruct (removeAll _ _ _) as [l' [err|]]; simpl; [done|].
  split_and!; [done..|]. by intros out [= <-].
Qed.

Lemma removeAll_reachable (txs : list Tx) : ∀ l,
  reachable sha256_hex l -> reachable sha256_hex (removeAll sha256_hex l txs).1.
Proof.
  induction txs as [|tx txs IH]; intros l Hr; [done|]. simpl.
  pose proof (reachable_Remove sha256_hex l tx Hr) as Hr'.
  destruct (Remove sha256_hex l tx) as [l' [err|]]; [done|]. by apply IH.
Qed.

(** X13. [PrepareLane] keeps the lane's bookkeeping intact whatever its
    outcome, error or not: the lane it leaves is one that [Remove]s alone
    produce from the lane it got, so its membership index holds exactly the
    identities of its pool and as many hashes as [CountTx] counts. *)
Theorem PrepareLane_keeps_bookkeeping l ctx m maxTxBytes selectedTxs :
  reachable sha256_hex l ->
  let l' := (PrepareLane sha256_hex l ctx m maxTxBytes selectedTxs).1.2 in
  reachable sha256_hex l'
  ∧ (∀ h, h ∈ txIndex l' <-> h ∈ pool_keys (index l'))
  ∧ size (txIndex l') = CountTx l'.
Proof.
  intros Hr l'.
  assert (Hr' : reachable sha256_hex l').
  { subst l'.
    destruct (PrepareLane_scan l ctx m maxTxBytes selectedTxs) as (_ & -> & _).
    destruct (selectBidTxLoop _ _ _ _ _ _ _).2; [done|].
    by apply removeAll_reachable. }
  split; [exact Hr'|].
  pose proof (reachable_inv sha256_hex l' Hr') as [_ _ Hnd Hix _].
  split.
  - intros h. by rewrite Hix, elem_of_list_to_set.
  - rewrite Hix, size_list_to_set by done.
    unfold CountTx, pool_CountTx, pool_keys. by rewrite length_fmap.
Qed.

Lemma removeAll_purges (txs : list Tx) : ∀ l,
  wired l -> ∃ hs, (removeAll sha256_hex l txs).1 = purge l hs.
Proof.
  induction txs as [|tx txs IH]; intros l Hid.
  - exists []. by rewrite purge_nil.
  - simpl. destruct (Remove_cases sha256_hex l tx Hid)
      as [(err & ->)|(h & _ & _ & ->)].
    + exists []. by rewrite purge_nil.
    + destruct (IH (purge l [h]) Hid) as [hs Hhs].
      exists ([h] ++ hs)%list. by rewrite Hhs, purge_purge.
Qed.

(** X14. [PrepareLane] never adds to the lane and never reorders it: after
    the call, with or without an error, the pool iterates a subsequence of
    what it iterated before, the membership index is a subset of what it
    was, and encoder, factory and hook of the lane are the same; when the
    call fails because a candidate cannot be hashed the lane is untouched. *)
Theorem PrepareLane_only_removes l ctx m maxTxBytes selectedTxs :
  wired l ->
  let call := PrepareLane sha256_hex l ctx m maxTxBytes selectedTxs in
  Select call.1.2 `sublist_of` Select l
  ∧ txIndex call.1.2 ⊆ txIndex l
  ∧ (af call.1.2 = af l ∧ txEncoder call.1.2 = txEncoder l
     ∧ anteHandler call.1.2 = anteHandler l)
  ∧ (∀ err, call.2 = inr (ErrWrap "failed to get bid tx hash" err) -> call.1.2 = l).
Proof.
  intros Hid call.
  assert (Hp : ∃ hs, call.1.2 = purge l hs).
  { subst call.
    destruct (PrepareLane_scan l ctx m maxTxBytes selectedTxs) as (_ & -> & _).
    destruct (selectBidTxLoop _ _ _ _ _ _ _).2.
    - exists []. by rewrite purge_nil.
    - by apply removeAll_purges. }
  split; [|split; [|split]].
  - destruct Hp as [hs ->]. unfold Select, pool_Select. simpl.
    apply fmap_sublist, sublist_filter.
  - destruct Hp as [hs ->]. simpl. intros x. rewrite elem_of_difference. tauto.
  - by destruct Hp as [hs ->].
  - intros err. subst call.
    destruct (PrepareLane_cases sha256_hex l ctx m maxTxBytes selectedTxs Hid)
      as [(c & o & _ & [(hs & _ & _ & ->)|(tx & what & l'' & _ & _ & ->)])
         |(pre & w & post & err' & _ & _ & _ & _ & ->)]; simpl; done.
Qed.

Lemma loop_all_skipped l m maxTxBytes selectedTxs (it : list Tx) st :
  Forall (λ tx, selectBid sha256_hex l (real st) m maxTxBytes selectedTxs tx = Skipped) it ->
  selectBidTxLoop sha256_hex l m maxTxBytes selectedTxs it st = (st, None).
Proof.
  induction 1 as [|tx it Hs _ IH]; [done|]. simpl. by rewrite Hs.
Qed.

(** X15. When every transaction of the pool is already among the selected
    ones, and in particular when the pool is empty, [PrepareLane] validates
    nothing, returns the empty selection without an error and leaves store
    and lane exactly as they were. *)
Theorem PrepareLane_all_selected l ctx m maxTxBytes selectedTxs :
  (∀ tx, tx ∈ Select l ->
     ∃ h, hash_of l tx = inl h ∧ is_Some (selectedTxs !! h)) ->
  PrepareLane sha256_hex l ctx m maxTxBytes selectedTxs = (ctx, l, inl []).
Proof.
  intros Hall. unfold PrepareLane. fold (Select l).
  rewrite loop_all_skipped; [done|].
  apply Forall_forall. intros tx (h & Hh & [bz Hs])%Hall.
  unfold selectBid. simpl. by rewrite Hh, Hs.
Qed.

(** X16. The size check of [PrepareLane]: the first byte string it returns,
    the bid, is never longer than [maxTxBytes]; with a negative [maxTxBytes]
    it selects nothing and writes nothing to the caller's store. *)
Theorem PrepareLane_bid_within_maxTxBytes l ctx m maxTxBytes selectedTxs :
  let call := PrepareLane sha256_hex l ctx m maxTxBytes selectedTxs in
  (∀ bidTxBz sdkTxBytes, call.2 = inl (bidTxBz :: sdkTxBytes) ->
     len64 bidTxBz <= maxTxBytes)
  ∧ (maxTxBytes < 0 -> call.1.1 = ctx ∧ ∀ out, call.2 = inl out -> out = []).
Proof.
  intros call. subst call.
  destruct (PrepareLane_scan l ctx m maxTxBytes selectedTxs) as (Hstore & _ & Hout).
  destruct (selectBidTxLoop_cases sha256_hex l m maxTxBytes selectedTxs (Select l)
              (scan_init ctx selectedTxs)) as [_ Hc]. simpl in Hc.
  split.
  - intros bz bzs [Hn Hsel]%Hout.
    destruct Hc as [(_&_&_&Ht&_)|[(pre&w&post&c&bz'&bzs'&_&_&Hw&_&_&Ht&_)
                                 |(pre&w&post&err&_&_&_&He&_)]].
    + rewrite Ht in Hsel. discriminate.
    + rewrite Ht in Hsel. injection Hsel as -> _.
      by apply selectBid_Won in Hw as (h & c1 & info & _ & _ & _ & Hle & _).
    + congruence.
  - intros Hneg.
    assert (Hnowin : ∀ w c bz bzs,
      selectBid sha256_hex l ctx m maxTxBytes selectedTxs w ≠ Won c bz bzs).
    { intros w c bz bzs (h & c1 & info & _ & _ & _ & Hle & _)%selectBid_Won.
      unfold len64 in Hle. lia. }
    destruct Hc as [(_&_&Hreal&Ht&_)|[(pre&w&post&c&bz'&bzs'&_&_&Hw&_)
                                     |(pre&w&post&err&_&_&_&He&Hreal&_)]].
    + split; [congruence|]. intros out [_ ->]%Hout. exact Ht.
    + by apply Hnowin in Hw.
    + split; [congruence|]. intros out [Hn _]%Hout. congruence.
Qed.

(** *** The two verification helpers *)

(** X17. [processProposalVerifyTx] undoes [prepareProposalVerifyTx]: for a
    transaction whose encoding decodes back to it, verifying the encoded
    bytes on the way in does to the store what verifying the transaction did
    on the way out, accepts exactly when that accepted, returns the
    transaction then and the same error otherwise. *)
Theorem process_after_prepare l ctx m tx txBz :
  txEncoder l tx = inl txBz ->
  txDecoder l txBz = inl tx ->
  processProposalVerifyTx l ctx m txBz
  = match prepareProposalVerifyTx l ctx m tx with
    | (ctx', inl _) => (ctx', inl tx)
    | (ctx', inr err) => (ctx', inr err)
    end.
Proof.
  intros Henc Hdec. unfold processProposalVerifyTx, prepareProposalVerifyTx.
  rewrite Henc, Hdec. by destruct (verifyTx l ctx m tx) as [[c m'] [err|]].
Qed.

(** *** RemoveTxsFromMempool *)

(** X18. [RemoveTxsFromMempool] is not atomic, for whatever mempool it is
    handed: it stops at the first removal that fails and returns that error
    as it is; the removals made before stay, and none is attempted after. *)
Theorem RemoveTxsFromMempool_first_failure {M : Type}
    (remove : M -> Tx -> M * option error) (pre post : list Tx) tx
    (mempool mempool1 mempool2 : M) err :
  RemoveTxsFromMempool remove pre mempool = (mempool1, None) ->
  remove mempool1 tx = (mempool2, Some err) ->
  RemoveTxsFromMempool remove (pre ++ tx :: post) mempool = (mempool2, Some err).
Proof.
  revert mempool. induction pre as [|tx' pre IH]; intros mempool; simpl.
  - intros [= <-] Hrm. by rewrite Hrm.
  - destruct (remove mempool tx') as [mp' [err'|]]; [done|]. apply IH.
Qed.


(** *** Calling PrepareLane again *)

Lemma prepareBundle_purge l hs m (raws : list bytes) : ∀ ctx,
  prepareBundle (purge l hs) ctx m raws = prepareBundle l ctx m raws.
Proof.
  induction raws as [|raw raws IH]; intros ctx; [done|]. simpl.
  change (af (purge l hs)) with (af l).
  destruct (WrapBundleTransaction (af l) raw) as [refTx|err]; [|done].
  change (prepareProposalVerifyTx (purge l hs) ctx m refTx)
    with (prepareProposalVerifyTx l ctx m refTx).
  destruct (prepareProposalVerifyTx l ctx m refTx) as [c1 [bz|err]]; [|done].
  by rewrite IH.
Qed.

Lemma selectBid_purge l hs ctx m maxTxBytes selectedTxs tx :
  selectBid sha256_hex (purge l hs) ctx m maxTxBytes selectedTxs tx
  = selectBid sha256_hex l ctx m maxTxBytes selectedTxs tx.
Proof.
  unfold selectBid, CacheContext.
  change (hash_of (purge l hs) tx) with (hash_of l tx).
  destruct (hash_of l tx) as [h|err]; [|done].
  destruct (selectedTxs !! h); [done|].
  change (prepareProposalVerifyTx (purge l hs) ctx m tx)
    with (prepareProposalVerifyTx l ctx m tx).
  destruct (prepareProposalVerifyTx l ctx m tx) as [c1 [bz|err]]; [|done].
  destruct (len64 bz <=? maxTxBytes); [|done].
  change (af (purge l hs)) with (af l).
  destruct (GetAuctionBidInfo (af l) tx) as [[info|] [err|]]; try done.
  by rewrite prepareBundle_purge.
Qed.

Lemma selectBidTxLoop_purge l hs m maxTxBytes selectedTxs (it : list Tx) : ∀ st,
  selectBidTxLoop sha256_hex (purge l hs) m maxTxBytes selectedTxs it st
  = selectBidTxLoop sha256_hex l m maxTxBytes selectedTxs it st.
Proof.
  induction it as [|tx it IH]; intros st; [done|]. simpl.
  rewrite selectBid_purge.
  by destruct (selectBid sha256_hex l (real st) m maxTxBytes selectedTxs tx).
Qed.

(** Scanning the pool again after the marks are gone: the same end, and
    nothing left to mark. *)
Lemma rescan l m maxTxBytes selectedTxs (hs : list string) ctx es : ∀ st st',
  (∀ e, e ∈ es -> e.1 ∈ hs ->
        selectBid sha256_hex l ctx m maxTxBytes selectedTxs e.2 = Marked) ->
  (∀ e, e ∈ es ->
        selectBid sha256_hex l ctx m maxTxBytes selectedTxs e.2 = Marked ->
        e.2 ∈ examined sha256_hex l ctx m maxTxBytes selectedTxs es.*2 ->
        e.1 ∈ hs) ->
  real st = ctx -> real st' = ctx -> tmpSelectedTxs st = tmpSelectedTxs st' ->
  let r := selectBidTxLoop sha256_hex l m maxTxBytes selectedTxs es.*2 st in
  let r' := selectBidTxLoop sha256_hex l m maxTxBytes selectedTxs
              (filter (λ e, e.1 ∉ hs) es).*2 st' in
  real r.1 = real r'.1 ∧ tmpSelectedTxs r.1 = tmpSelectedTxs r'.1
  ∧ r.2 = r'.2 ∧ txsToRemove r'.1 = txsToRemove st'.
Proof.
  induction es as [|e es IH]; intros st st' H1 H2 Hr Hr' Ht; simpl.
  { split_and!; congruence. }
  rewrite filter_cons.
  assert (H1' : ∀ e', e' ∈ es -> e'.1 ∈ hs ->
            selectBid sha256_hex l ctx m maxTxBytes selectedTxs e'.2 = Marked).
  { intros e' Hin. apply H1. by right. }
  simpl in H2. rewrite Hr.
  destruct (selectBid sha256_hex l ctx m maxTxBytes selectedTxs e.2)
    as [err| | |c bz bzs] eqn:Ho.
  - destruct (decide (e.1 ∉ hs)) as [_|Hn].
    + simpl. rewrite Hr', Ho. simpl. split_and!; congruence.
    + apply dec_stable in Hn. rewrite (H1 e) in Ho by (done || by left). done.
  - destruct (decide (e.1 ∉ hs)) as [_|Hn].
    + simpl. rewrite Hr', Ho. apply IH; try done.
      intros e' Hin Hm Hex. apply (H2 e'); [by right|done|by right].
    + apply dec_stable in Hn. rewrite (H1 e) in Ho by (done || by left). done.
  - destruct (decide (e.1 ∉ hs)) as [Hn|_].
    + exfalso. apply Hn. apply (H2 e); [by left|done|by left].
    + apply IH; try done.
      intros e' Hin Hm Hex. apply (H2 e'); [by right|done|by right].
  - destruct (decide (e.1 ∉ hs)) as [_|Hn].
    + simpl. rewrite Hr', Ho. simpl. split_and!; congruence.
    + apply dec_stable in Hn. rewrite (H1 e) in Ho by (done || by left). done.
Qed.

(** X20. A successful [PrepareLane] can be repeated: the winner stays in the
    pool, so a second call on the lane the first one left, with the store and
    the selected transactions of the first call, returns the same selection,
    writes the same store and removes nothing more. *)
Theorem PrepareLane_repeatable l ctx m maxTxBytes selectedTxs ctx' l' out :
  reachable sha256_hex l ->
  PrepareLane sha256_hex l ctx m maxTxBytes selectedTxs = (ctx', l', inl out) ->
  PrepareLane sha256_hex l' ctx m maxTxBytes selectedTxs = (ctx', l', inl out).
Proof.
  intros Hinv%reachable_inv Hcall.
  pose proof (inv_identity _ _ Hinv) as Hid.
  destruct (PrepareLane_scan l ctx m maxTxBytes selectedTxs) as (Hstore & _ & Hout).
  rewrite Hcall in Hstore, Hout. simpl in Hstore.
  destruct (Hout out eq_refl) as [Hnone Htmp]. clear Hout.
  destruct (PrepareLane_cases sha256_hex l ctx m maxTxBytes selectedTxs Hid)
    as [(c & o & _ & [(hs & Hhs & _ & He)|(tx & what & l'' & _ & _ & He)])
       |(pre & w & post & err & _ & _ & _ & _ & He)];
    rewrite He in Hcall; try discriminate.
  injection Hcall as _ <- _. clear He c o.
  assert (H1 : ∀ e, e ∈ entries (index l) -> e.1 ∈ hs ->
            selectBid sha256_hex l ctx m maxTxBytes selectedTxs e.2 = Marked).
  { intros e He Hk.
    destruct (Forall2_elem_r _ _ _ _ Hhs Hk) as (t & Hin & Hh).
    pose proof Hin as [Hex Hm]%marked_elem.
    apply examined_sublist in Hex as (e' & -> & He')%list_elem_of_fmap.
    assert (hash_of l e'.2 = inl e'.1).
    { by eapply Forall_forall in He'; [|exact (inv_hashes _ _ Hinv)]. }
    assert (e = e'); [|by subst].
    eapply nodup_keys_entry; [exact (inv_nodup _ _ Hinv)|done..|congruence]. }
  assert (H2 : ∀ e, e ∈ entries (index l) ->
            selectBid sha256_hex l ctx m maxTxBytes selectedTxs e.2 = Marked ->
            e.2 ∈ examined sha256_hex l ctx m maxTxBytes selectedTxs (entries (index l)).*2 ->
            e.1 ∈ hs).
  { intros e He Hm Hex.
    pose proof (examined_marked sha256_hex l m maxTxBytes selectedTxs ctx _ _ Hex Hm) as Hin.
    destruct (Forall2_elem_l _ _ _ _ Hhs Hin) as (h & Hh & Hhash).
    assert (hash_of l e.2 = inl e.1).
    { by eapply Forall_forall in He; [|exact (inv_hashes _ _ Hinv)]. }
    congruence. }
  pose proof (rescan l m maxTxBytes selectedTxs hs ctx (entries (index l))
                (scan_init ctx selectedTxs) (scan_init ctx selectedTxs)
                H1 H2 eq_refl eq_refl eq_refl) as (Hreal & Htmp' & Herr & Hmarks).
  unfold PrepareLane. rewrite selectBidTxLoop_purge.
  unfold Select, pool_Select in *. simpl in *.
  destruct (selectBidTxLoop sha256_hex l m maxTxBytes selectedTxs
              (filter _ _).*2 _) as [st' oerr'].
  simpl in *. rewrite <- Herr, Hnone. rewrite Hmarks. simpl.
  by rewrite <- Hreal, <- Htmp', <- Hstore, <- Htmp.
Qed.

(** *** What PrepareLane reads of the selected transactions *)

Lemma selectBid_same_keys l ctx m maxTxBytes (sel1 sel2 : gmap string bytes) tx :
  (∀ h, is_Some (sel1 !! h) <-> is_Some (sel2 !! h)) ->
  selectBid sha256_hex l ctx m maxTxBytes sel1 tx
  = selectBid sha256_hex l ctx m maxTxBytes sel2 tx.
Proof.
  intros Hdom. unfold selectBid, CacheContext.
  destruct (hash_of l tx) as [h|err]; [|done].
  specialize (Hdom h).
  destruct (sel1 !! h) as [b1|], (sel2 !! h) as [b2|]; try done.
  - destruct Hdom as [Hd _]. by destruct Hd as [? [=]].
  - destruct Hdom as [_ Hd]. by destruct Hd as [? [=]].
Qed.

Lemma selectBidTxLoop_same_keys l m maxTxBytes (sel1 sel2 : gmap string bytes)
    (it : list Tx) : ∀ st1 st2,
  (∀ h, is_Some (sel1 !! h) <-> is_Some (sel2 !! h)) ->
  real st1 = real st2 -> tmpSelectedTxs st1 = tmpSelectedTxs st2 ->
  txsToRemove st1 = txsToRemove st2 ->
  let r1 := selectBidTxLoop sha256_hex l m maxTxBytes sel1 it st1 in
  let r2 := selectBidTxLoop sha256_hex l m maxTxBytes sel2 it st2 in
  real r1.1 = real r2.1 ∧ tmpSelectedTxs r1.1 = tmpSelectedTxs r2.1
  ∧ txsToRemove r1.1 = txsToRemove r2.1 ∧ r1.2 = r2.2.
Proof.
  induction it as [|tx it IH]; intros st1 st2 Hdom Hr Ht Hm; simpl; [done|].
  rewrite (selectBid_same_keys l _ m maxTxBytes sel1 sel2 tx Hdom), Hr.
  destruct (selectBid sha256_hex l (real st2) m maxTxBytes sel2 tx); simpl.
  - done.
  - by apply IH.
  - apply IH; simpl; [done|congruence..].
  - split_and!; congruence.
Qed.

(** X21. [PrepareLane] reads nothing of the selected transactions but their
    hashes: for two maps with the same keys, whatever bytes they hold, the
    scan ends with the same store, the same selection, the same marks and the
    same error, the call leaves the same store, and a call that succeeds for
    one succeeds for the other with the same store, lane and selection.  The
    number of bytes already selected has no influence on any of these. *)
Theorem PrepareLane_reads_keys_only l ctx m maxTxBytes (sel1 sel2 : gmap string bytes) :
  (∀ h, is_Some (sel1 !! h) <-> is_Some (sel2 !! h)) ->
  let r1 := selectBidTxLoop sha256_hex l m maxTxBytes sel1 (Select l)
              (scan_init ctx sel1) in
  let r2 := selectBidTxLoop sha256_hex l m maxTxBytes sel2 (Select l)
              (scan_init ctx sel2) in
  (real r1.1 = real r2.1 ∧ tmpSelectedTxs r1.1 = tmpSelectedTxs r2.1
   ∧ txsToRemove r1.1 = txsToRemove r2.1 ∧ r1.2 = r2.2)
  ∧ (PrepareLane sha256_hex l ctx m maxTxBytes sel1).1.1
    = (PrepareLane sha256_hex l ctx m maxTxBytes sel2).1.1
  ∧ (∀ ctx' l' out,
       PrepareLane sha256_hex l ctx m maxTxBytes sel1 = (ctx', l', inl out) ->
       PrepareLane sha256_hex l ctx m maxTxBytes sel2 = (ctx', l', inl out)).
Proof.
  intros Hdom r1 r2.
  pose proof (selectBidTxLoop_same_keys l m maxTxBytes sel1 sel2 (Select l)
                (scan_init ctx sel1) (scan_init ctx sel2) Hdom eq_refl eq_refl eq_refl)
    as (Hr & Ht & Hm & He).
  fold r1 r2 in Hr, Ht, Hm, He.
  split; [by split_and!|].
  unfold PrepareLane. fold (Select l). fold r1 r2.
  destruct r1 as [st1 e1], r2 as [st2 e2]. simpl in *. subst e2.
  rewrite Hm. split.
  - destruct e1; [done|]. by destruct (removeAll sha256_hex l (txsToRemove st2)) as [l2 [e|]].
  - intros ctx' l' out. destruct e1; [done|].
    destruct (removeAll sha256_hex l (txsToRemove st2)) as [l2 [e|]]; [done|].
    intros [= <- <- <-]. by rewrite Hr, Ht.
Qed.

End Further.

(** ** The properties on the concrete wiring *)

Section OnDemo.

Import Demo.

Local Abbreviation prepare l := (PrepareLane hash l [] tt).

Local Ltac by_inserts :=
  lazymatch goal with
  | |- reachable _ ?l => unfold l
  end;
  cbv beta iota delta [inserts empty_lane new_lane foldl];
  repeat apply reachable_Insert; apply reachable_new.

Local Ltac elem_of_concrete :=
  vm_compute; repeat first [apply list_elem_of_here | apply list_elem_of_further].

Lemma demo_priority_is_bid (l : lane) :
  af l = factory -> TxPriority (index l) = priority ->
  ∀ t bidInfo, GetAuctionBidInfo (af l) t = (Some bidInfo, None) ->
               TxPriority (index l) t = Bid bidInfo.
Proof.
  intros -> -> [body|body amount bundle] bidInfo; simpl; [done|].
  by intros [= <-].
Qed.

(** With four bytes allowed, [bidA] is too long, the bundle of [bidC] is rejected,
    and [bidB] wins. *)
Example prepare_ABC_4 :
  (prepare lane_ABC 4 ∅).2 = inl [bs "bbb"; bs "z"]
  ∧ (prepare lane_ABC 4 ∅).1.1 = [bs "bbb"; bs "z"]
  ∧ Select (prepare lane_ABC 4 ∅).1.2 = [bidB].
Proof. by vm_compute. Qed.

(** With enough room [bidA] wins at once; [bidC] and [bidB] are never reached
    and stay in the pool. *)
Example prepare_ABC_200 :
  (prepare lane_ABC 200 ∅).2 = inl [bs "AAAAA"; bs "x"; bs "y"]
  ∧ Select (prepare lane_ABC 200 ∅).1.2 = [bidA; bidC; bidB].
Proof. by vm_compute. Qed.

(** A candidate that cannot be hashed ends the call with an error. *)
Example prepare_unhashable :
  (prepare lane_U 4 ∅).2
  = inr (ErrWrap "failed to get bid tx hash"
           (ErrWrap "failed to encode transaction" (ErrExternal "empty body"))).
Proof. by vm_compute. Qed.

Lemma PrepareLane_selects_highest_bid_witness :
  reachable hash lane_ABC
  ∧ qualifies hash lane_ABC [] tt 4 ∅ bidB
  ∧ ∃ w bidInfo,
      w ∈ Select lane_ABC
      ∧ GetAuctionBidInfo (af lane_ABC) w = (Some bidInfo, None)
      ∧ txEncoder lane_ABC w = inl (bs "bbb")
      ∧ (∀ t, t ∈ Select lane_ABC ->
           qualifies hash lane_ABC [] tt 4 ∅ t ->
           TxPriority (index lane_ABC) t <= TxPriority (index lane_ABC) w)
      ∧ ∀ t bidInfo', t ∈ Select lane_ABC ->
          qualifies hash lane_ABC [] tt 4 ∅ t ->
          GetAuctionBidInfo (af lane_ABC) t = (Some bidInfo', None) ->
          Bid bidInfo' <= Bid bidInfo.
Proof.
  assert (Hr : reachable hash lane_ABC) by by_inserts.
  split; [exact Hr|]. split.
  { exists (hash (bs "bbb")), [bs "bbb"], (bs "bbb"),
      {| Bidder := "bidder"; Bid := 50; Transactions := [bs "z"]; Timeout := 0 |},
      [bs "bbb"; bs "z"], [bs "z"].
    split_and!; try (vm_compute; reflexivity).
    - intros raw refTx Hin Hw. simpl in Hin.
      apply list_elem_of_singleton in Hin as ->.
      vm_compute in Hw. injection Hw as <-. vm_compute; reflexivity.
    - vm_compute. discriminate. }
  destruct (PrepareLane_selects_highest_bid hash lane_ABC [] tt 4 ∅
              (prepare lane_ABC 4 ∅).1.1 (prepare lane_ABC 4 ∅).1.2
              [bs "bbb"; bs "z"] Hr)
    as [[Hnil _]|(w & info & bz & refTxs & bzs & Hin & _ & Hinfo & Henc & _ & _
                  & Hout & Hprio & Hbid)].
  - vm_compute; reflexivity.
  - discriminate Hnil.
  - injection Hout as <- _. exists w, info. split_and!; try assumption.
    apply Hbid. apply demo_priority_is_bid; vm_compute; reflexivity.
Defined.

Lemma PrepareLane_commits_only_winner_witness :
  (prepare lane_C 10 ∅).1.1 = [].
Proof.
  apply (PrepareLane_commits_only_winner hash lane_C [] tt 10 ∅).
  intros t Hin. vm_compute in Hin.
  apply list_elem_of_singleton in Hin as ->.
  intros (c & bz & bzs & Hw)%eligible_Won. vm_compute in Hw. discriminate Hw.
Defined.

Lemma PrepareLane_removes_marked_witness :
  reachable hash lane_ABC
  ∧ Contains hash (prepare lane_ABC 4 ∅).1.2 bidA = inl false
  ∧ bidA ∉ Select (prepare lane_ABC 4 ∅).1.2.
Proof.
  assert (Hr : reachable hash lane_ABC) by by_inserts.
  split; [exact Hr|].
  destruct (PrepareLane_removes_marked hash lane_ABC [] tt 4 ∅
              (prepare lane_ABC 4 ∅).1.1 (prepare lane_ABC 4 ∅).1.2
              [bs "bbb"; bs "z"] Hr) as [Hgone _].
  - vm_compute; reflexivity.
  - destruct (Hgone bidA) as (Hc & Hs & _); [elem_of_concrete|].
    split; assumption.
Defined.

Lemma PrepareLane_error_iff_witness :
  ∃ err, (prepare lane_ABC_faulty 4 ∅).2 = inr err.
Proof.
  destruct (PrepareLane_error_iff hash lane_ABC_faulty [] tt 4 ∅) as [Hiff _].
  - vm_compute; reflexivity.
  - apply Hiff. right. exists bidC, "no signer". split; [elem_of_concrete|].
    vm_compute; reflexivity.
Defined.

Lemma index_matches_pool_witness :
  reachable hash lane_ABC
  ∧ size (txIndex lane_ABC) = CountTx lane_ABC
  ∧ ∃ l', Remove hash lane_ABC bidA = (l', None)
          ∧ Contains hash l' bidA = inl false
          ∧ (bidA ∉ Select l').
Proof.
  assert (Hr : reachable hash lane_ABC) by by_inserts.
  split; [exact Hr|].
  destruct (index_matches_pool hash lane_ABC Hr) as (_ & _ & Hsize & _ & _ & Hrm).
  split; [exact Hsize|].
  destruct (Hrm bidA) as (l' & Hok & Hc & Hs & _).
  - eexists. vm_compute. reflexivity.
  - vm_compute. reflexivity.
  - exists l'. split_and!; assumption.
Defined.

Lemma Insert_present_is_duplicate_witness :
  Contains hash lane_ABC bidA = inl true
  ∧ Insert hash lane_ABC bidA
    = (lane_ABC, Some (ErrWrap "failed to insert tx into auction index" ErrDuplicate)).
Proof.
  assert (Hc : Contains hash lane_ABC bidA = inl true) by (vm_compute; reflexivity).
  split; [exact Hc|].
  apply (Insert_present_is_duplicate hash lane_ABC bidA); [by_inserts|].
  right. exact Hc.
Defined.

Lemma PrepareLane_keeps_unmarked_witness :
  reachable hash lane_ABC
  ∧ bidB ∈ Select (prepare lane_ABC 4 ∅).1.2
  ∧ Contains hash (prepare lane_ABC 4 ∅).1.2 bidB = inl true.
Proof.
  assert (Hr : reachable hash lane_ABC) by by_inserts.
  split; [exact Hr|].
  destruct (PrepareLane_keeps_unmarked hash lane_ABC [] tt 4 ∅
              (prepare lane_ABC 4 ∅).1.1 (prepare lane_ABC 4 ∅).1.2
              [bs "bbb"; bs "z"] Hr) as (_ & _ & Hwin).
  - vm_compute; reflexivity.
  - apply Hwin; [elem_of_concrete|].
    apply eligible_Won. eexists _, _, _. vm_compute. reflexivity.
Defined.

(** C1, as the claim has it, fails.  Bid [bidA] is in the pool, bids 100, is
    accepted by the hook with its whole bundle, and its seven bytes fit into
    what is left of 200 bytes; it is already selected, so the call skips it
    and returns bid [bidB], which bids 50. *)
Lemma PrepareLane_skips_selected_top_bid :
  (prepare lane_AB 200 A_selected).2 = inl [bs "bbb"; bs "z"]
  ∧ Select lane_AB = [bidA; bidB]
  ∧ GetAuctionBidInfo (af lane_AB) bidA
    = (Some {| Bidder := "bidder"; Bid := 100;
               Transactions := [bs "x"; bs "y"]; Timeout := 0 |}, None)
  ∧ GetAuctionBidInfo (af lane_AB) bidB
    = (Some {| Bidder := "bidder"; Bid := 50;
               Transactions := [bs "z"]; Timeout := 0 |}, None)
  ∧ prepareProposalVerifyTx lane_AB [] tt bidA = ([bs "AAAAA"], inl (bs "AAAAA"))
  ∧ prepareBundle lane_AB [bs "AAAAA"] tt [bs "x"; bs "y"]
    = Some ([bs "AAAAA"; bs "x"; bs "y"], [bs "x"; bs "y"])
  ∧ total_len [bs "AAAAA"; bs "x"; bs "y"] <= 200 - totalTxBytes A_selected
  ∧ ¬ eligible hash lane_AB [] tt 200 A_selected bidA.
Proof.
  split_and!; try by vm_compute.
  intros (c & bz & bzs & Hw)%eligible_Won. vm_compute in Hw. discriminate Hw.
Qed.

(** With five bytes allowed, bid [bidA] with its bundle takes seven: it does
    not pass for fully valid and within the budget, so the statement on the
    selection neither asks for it nor forbids it. *)
Example bidA_over_budget : ¬ qualifies hash lane_A [] tt 5 ∅ bidA.
Proof.
  intros (h & c1 & bz & info & c2 & bzs & _ & _ & Hp & Hinfo & Hb & _ & Hfit).
  vm_compute in Hp. injection Hp as <- <-.
  vm_compute in Hinfo. injection Hinfo as <-.
  vm_compute in Hb. injection Hb as _ <-.
  vm_compute in Hfit. by apply Hfit.
Qed.

(** C2, at two inputs.  The only size check of [PrepareLane] compares the
    encoding of the bid with [maxTxBytes].  With five bytes allowed and
    nothing selected before, bid [bidA] is returned with its bundle, seven bytes
    in all; with five bytes allowed of which three are already taken, bid [bidS]
    is returned with its three bytes. *)
Theorem PrepareLane_overruns_budget :
  ((prepare lane_A 5 ∅).2 = inl [bs "AAAAA"; bs "x"; bs "y"]
   ∧ 5 - totalTxBytes ∅ < total_len [bs "AAAAA"; bs "x"; bs "y"])
  ∧ ((prepare lane_S 5 earlier).2 = inl [bs "sss"]
     ∧ totalTxBytes earlier = 3
     ∧ 5 - totalTxBytes earlier < total_len [bs "sss"]).
Proof. by vm_compute. Qed.

(** C3, at one input.  Bid [bidN] bundles a payload that wraps to a bid.
    [VerifyTx] rejects it; [PrepareLane] returns it with its bundle and leaves
    it in the pool and in the membership index. *)
Theorem PrepareLane_selects_nested_bid :
  (∃ nested, (GetAuctionBidInfo factory (BidTx (bs "Bid") 1 [])).1 = Some nested
             ∧ WrapBundleTransaction factory (bs "Bid") = inl (BidTx (bs "Bid") 1 []))
  ∧ VerifyTx lane_N [] tt bidN
    = Returns ([bs "nnn"], Some (ErrMsg "invalid bid tx; bundled tx cannot be a bid tx"))
  ∧ (prepare lane_N 10 ∅).2 = inl [bs "nnn"; bs "Bid"]
  ∧ Select (prepare lane_N 10 ∅).1.2 = [bidN]
  ∧ Contains hash (prepare lane_N 10 ∅).1.2 bidN = inl true.
Proof. split; [eexists|]; by vm_compute. Qed.

(** C7, as the claim has it, fails.  Bid [bidC] is inserted into a reachable
    lane whose pool refuses to remove it; [Remove] returns the refusal, and
    [Contains] still answers true afterwards. *)
Lemma Remove_refused_keeps_Contains :
  reachable hash lane_ABC_faulty
  ∧ Insert hash (inserts (new_lane no_signer) [bidB; bidA]) bidC
    = (lane_ABC_faulty, None)
  ∧ Contains hash lane_ABC_faulty bidC = inl true
  ∧ (Remove hash lane_ABC_faulty bidC).2
    = Some (ErrWrap "failed to remove invalid transaction from the mempool"
              (ErrExternal "no signer"))
  ∧ Contains hash (Remove hash lane_ABC_faulty bidC).1 bidC = inl true.
Proof.
  split; [by_inserts|]. split_and!; by vm_compute.
Qed.

(** C9, at one input.  The leading transaction of the proposal below decodes
    to a transaction that does not match the lane, so the whole sequence is
    to be passed on; [ProcessLane] panics instead and does not return,
    neither with nor without an error. *)
Lemma ProcessLane_does_not_delegate :
  (∃ t, txDecoder lane_ABC (bs "plain") = inl t ∧ Match lane_ABC t = false)
  ∧ ProcessLane lane_ABC [] tt [bs "plain"; bs "other"] = Panics "not implemented"
  ∧ ¬ ∃ err : option error,
        ProcessLane lane_ABC [] tt [bs "plain"; bs "other"] = Returns err.
Proof.
  split_and!.
  - eexists. by vm_compute.
  - reflexivity.
  - intros [err Hret]. discriminate Hret.
Qed.

End OnDemo.

(** ** The further properties on the concrete wiring *)

Section OnDemoFurther.

Import Demo.

Local Abbreviation prepare l := (PrepareLane hash l [] tt).

Local Ltac by_inserts :=
  lazymatch goal with
  | |- reachable _ ?l => unfold l
  end;
  cbv beta iota delta [inserts empty_lane new_lane foldl];
  repeat apply reachable_Insert; apply reachable_new.

Local Ltac by_eval := vm_compute; reflexivity.

Lemma membership_by_encoding_witness :
  Contains hash lane_ABC bidB = Contains hash lane_ABC (Plain (bs "bbb")).
Proof.
  apply (membership_by_encoding hash lane_ABC bidB (Plain (bs "bbb"))). by_eval.
Defined.

Lemma Remove_idempotent_witness :
  Remove hash (Remove hash lane_ABC bidA).1 bidA = ((Remove hash lane_ABC bidA).1, None).
Proof.
  apply (Remove_idempotent hash lane_ABC bidA); by_eval.
Defined.

Lemma Remove_absent_is_noop_witness :
  Remove hash lane_ABC bidS = (lane_ABC, None).
Proof.
  apply (Remove_absent_is_noop hash lane_ABC bidS); [by_inserts|by_eval..].
Defined.

Lemma Remove_error_unchanged_witness :
  (Remove hash lane_ABC_faulty bidC).1 = lane_ABC_faulty.
Proof.
  apply (Remove_error_unchanged hash lane_ABC_faulty bidC
           (Remove hash lane_ABC_faulty bidC).1
           (ErrWrap "failed to remove invalid transaction from the mempool"
              (ErrExternal "no signer"))); by_eval.
Defined.

Lemma Remove_takes_one_witness :
  S (CountTx (Remove hash lane_ABC bidA).1) = CountTx lane_ABC.
Proof.
  apply (Remove_takes_one hash lane_ABC bidA (Remove hash lane_ABC bidA).1);
    [by_inserts|by_eval..].
Defined.

Lemma Insert_then_Remove_witness :
  Remove hash (Insert hash lane_AB bidC).1 bidC = (lane_AB, None).
Proof.
  apply (Insert_then_Remove hash lane_AB bidC (Insert hash lane_AB bidC).1);
    [by_inserts|by_eval..].
Defined.

Lemma Insert_error_unchanged_witness :
  (Insert hash lane_ABC bidA).1 = lane_ABC.
Proof.
  apply (Insert_error_unchanged hash lane_ABC bidA (Insert hash lane_ABC bidA).1
           (ErrWrap "failed to insert tx into auction index" ErrDuplicate)).
  by_eval.
Defined.

Lemma Insert_adds_one_witness :
  CountTx (Insert hash lane_AB bidC).1 = S (CountTx lane_AB).
Proof.
  apply (Insert_adds_one hash lane_AB bidC (Insert hash lane_AB bidC).1);
    [by_inserts|by_eval].
Defined.

Lemma VerifyTx_accepts_iff_witness :
  ∃ bidInfo refTxs m',
    GetAuctionBidInfo (af lane_ABC) bidB = (Some bidInfo, None)
    ∧ Forall2 (λ raw refTx, WrapBundleTransaction (af lane_ABC) raw = inl refTx)
        (Transactions bidInfo) refTxs
    ∧ Forall (λ refTx, (GetAuctionBidInfo (af lane_ABC) refTx).1 = None) refTxs
    ∧ verifyAll lane_ABC [] tt (bidB :: refTxs) = ([bs "bbb"; bs "z"], m', None).
Proof.
  apply (VerifyTx_accepts_iff lane_ABC [] tt bidB [bs "bbb"; bs "z"]). by_eval.
Defined.

Lemma VerifyTx_panics_iff_witness :
  ∃ ctx' oerr, VerifyTx lane_ABC [] tt bidB = Returns (ctx', oerr).
Proof.
  apply (VerifyTx_panics_iff lane_ABC [] tt bidB). by_eval.
Defined.

Lemma no_hook_no_writes_witness :
  (prepare lane_nohook 10 ∅).1.1 = [].
Proof.
  apply (no_hook_no_writes hash lane_nohook [] tt). by_eval.
Defined.

Lemma winner_passes_VerifyTx_witness :
  VerifyTx lane_ABC [] tt bidB = Returns ([bs "bbb"; bs "z"], None).
Proof.
  apply (winner_passes_VerifyTx hash lane_ABC [] tt 4 ∅ bidB [bs "bbb"; bs "z"]
           (bs "bbb") [bs "z"]
           {| Bidder := "bidder"; Bid := 50; Transactions := [bs "z"]; Timeout := 0 |}).
  - intros s t. by destruct (verifyTx lane_ABC s tt t).1.2.
  - by_eval.
  - intros raw refTx Hin Hw. simpl in Hin.
    apply list_elem_of_singleton in Hin as ->.
    vm_compute in Hw. injection Hw as <-. by_eval.
  - by_eval.
Defined.

Lemma PrepareLane_keeps_bookkeeping_witness :
  size (txIndex (prepare lane_ABC_faulty 4 ∅).1.2)
  = CountTx (prepare lane_ABC_faulty 4 ∅).1.2.
Proof.
  apply (PrepareLane_keeps_bookkeeping hash lane_ABC_faulty [] tt 4 ∅). by_inserts.
Defined.

Lemma PrepareLane_only_removes_witness :
  Select (prepare lane_ABC 4 ∅).1.2 `sublist_of` Select lane_ABC.
Proof.
  apply (PrepareLane_only_removes hash lane_ABC [] tt 4 ∅). by_eval.
Defined.

Lemma PrepareLane_all_selected_witness :
  prepare lane_A 200 A_selected = ([], lane_A, inl []).
Proof.
  apply (PrepareLane_all_selected hash lane_A [] tt 200 A_selected).
  intros t Hin. vm_compute in Hin. apply list_elem_of_singleton in Hin as ->.
  exists (hash (bs "AAAAA")). split; [by_eval|]. vm_compute. eexists. reflexivity.
Defined.

Lemma PrepareLane_bid_within_maxTxBytes_witness :
  len64 (bs "bbb") <= 4.
Proof.
  apply (PrepareLane_bid_within_maxTxBytes hash lane_ABC [] tt 4 ∅) with [bs "z"].
  by_eval.
Defined.

Lemma process_after_prepare_witness :
  processProposalVerifyTx lane_ABC [] tt (bs "p")
  = match prepareProposalVerifyTx lane_ABC [] tt (Plain (bs "p")) with
    | (ctx', inl _) => (ctx', inl (Plain (bs "p")))
    | (ctx', inr err) => (ctx', inr err)
    end.
Proof.
  apply (process_after_prepare lane_ABC [] tt (Plain (bs "p")) (bs "p")); by_eval.
Defined.

Lemma RemoveTxsFromMempool_first_failure_witness :
  RemoveTxsFromMempool (Remove hash) [bidA; bidC; bidB] lane_ABC_faulty
  = ((Remove hash lane_ABC_faulty bidA).1,
     Some (ErrWrap "failed to remove invalid transaction from the mempool"
             (ErrExternal "no signer"))).
Proof.
  apply (RemoveTxsFromMempool_first_failure (Remove hash) [bidA] [bidB] bidC
           lane_ABC_faulty (Remove hash lane_ABC_faulty bidA).1); by_eval.
Defined.


Lemma PrepareLane_repeatable_witness :
  prepare (prepare lane_ABC 4 ∅).1.2 4 ∅
  = ((prepare lane_ABC 4 ∅).1.1, (prepare lane_ABC 4 ∅).1.2, inl [bs "bbb"; bs "z"]).
Proof.
  apply (PrepareLane_repeatable hash lane_ABC [] tt 4 ∅); [by_inserts|by_eval].
Defined.

Lemma PrepareLane_reads_keys_only_witness :
  (prepare lane_S 5 earlier).1.1 = (prepare lane_S 5 {[ "k" := [] ]}).1.1
  ∧ prepare lane_S 5 {[ "k" := [] ]}
    = ((prepare lane_S 5 earlier).1.1, (prepare lane_S 5 earlier).1.2, inl [bs "sss"]).
Proof.
  destruct (PrepareLane_reads_keys_only hash lane_S [] tt 5 earlier {[ "k" := [] ]})
    as (_ & Hstore & Hsame).
  - intros h. unfold earlier. destruct (decide (h = "k")) as [->|Hne].
    + rewrite !lookup_singleton_eq. split; eauto.
    + rewrite !lookup_singleton_ne by done. split; intros [? [=]].
  - split; [exact Hstore|]. apply Hsame. vm_compute. reflexivity.
Defined.

End OnDemoFurther.
